(** * pvxs [SockAddr]: textual parsing and formatting of endpoint addresses

    A shallow embedding of the [SockAddr] part of [src/util.cpp]
    ([SockAddr::setAddress], [setPort], [port], [isAny], [isLO], [isMCast],
    [map4to6], [any], [loopback], [operator<<]) and of the strict integer
    parser [parseTo<uint64_t>] it consumes, followed by the properties the
    specification states about them.

    Conventions.
    - A [const char*] argument is the list of characters before its
      terminator ([cstr]); offsets into it stand for the pointers the code
      computes, [None] for a null pointer.
    - Unsigned machine integers are [Z] with the wrap-around written out.
    - A C++ [throw] is the [Throw] outcome of [result]; the message keeps the
      literal head of the text the code builds (the escaped input that
      follows it is left out).
    - The union [store] is a record with its [sockaddr_in] and
      [sockaddr_in6] views side by side: every access in the source goes
      through the view that matches [sa_family]. *)

From Stdlib Require Import ZArith List String Ascii Bool Lia.
Import ListNotations.
Local Open Scope Z_scope.

(** ** C strings *)

Definition cstr := list ascii.

Definition lit (s : string) : cstr := list_ascii_of_string s.

(** [strchr(s, c)]: offset of the first [c] in [s], for [c] other than the
    terminator. *)
Fixpoint strchr (s : cstr) (c : ascii) : option nat :=
  match s with
  | [] => None
  | x :: r => if Ascii.eqb x c then Some 0%nat else option_map S (strchr r c)
  end.

(** [strrchr(s, c)]: offset of the last [c] in [s]. *)
Fixpoint strrchr (s : cstr) (c : ascii) : option nat :=
  match s with
  | [] => None
  | x :: r =>
      match strrchr r c with
      | Some i => Some (S i)
      | None => if Ascii.eqb x c then Some 0%nat else None
      end
  end.

(** Number of occurrences of a character; the specification speaks of colon
    counts, the code of first and last positions. *)
Fixpoint occurrences (c : ascii) (s : cstr) : nat :=
  match s with
  | [] => 0%nat
  | x :: r => ((if Ascii.eqb x c then 1 else 0) + occurrences c r)%nat
  end.

Definition absent (c : ascii) (s : cstr) : Prop := occurrences c s = 0%nat.

(** ** Outcomes *)

Inductive exn : Type :=
| runtime_error (what : string)
| NoConvert (what : string)
| logic_error (what : string)
| invalid_argument (what : string)
| out_of_range (what : string).

Inductive result (A : Type) : Type :=
| Ok (a : A)
| Throw (e : exn).
Arguments Ok {A} a.
Arguments Throw {A} e.

Definition bind {A B} (r : result A) (k : A -> result B) : result B :=
  match r with
  | Ok a => k a
  | Throw e => Throw e
  end.

Notation "x <- r ;; k" := (bind r (fun x => k))
  (at level 61, r at next level, right associativity).

(** The error kinds of the specification (section 7), read off the
    exception classes the code throws: [InvalidFormat] covers the
    [std::runtime_error] of [setAddress] and the [NoConvert] of the integer
    parser ("trailing characters after port"), [UnsupportedFamily] is
    [std::invalid_argument], [InvalidFamily] is the [std::logic_error] of
    [map4to6]. *)
Definition InvalidFormat (e : exn) : Prop :=
  match e with
  | runtime_error _ | NoConvert _ => True
  | _ => False
  end.

Definition UnsupportedFamily (e : exn) : Prop :=
  match e with
  | invalid_argument _ => True
  | _ => False
  end.

Definition InvalidFamily (e : exn) : Prop :=
  match e with
  | logic_error _ => True
  | _ => False
  end.

Definition fails_with {A} (kind : exn -> Prop) (r : result A) : Prop :=
  match r with
  | Ok _ => False
  | Throw e => kind e
  end.

Definition succeeds {A} (r : result A) : Prop :=
  match r with
  | Ok _ => True
  | Throw _ => False
  end.

(** ** The strict integer parser *)

Definition ULLONG_MAX : Z := 2 ^ 64 - 1.

Definition code (c : ascii) : Z := Z.of_nat (nat_of_ascii c).

(** [isspace] in the "C" locale. *)
Definition isspace (c : ascii) : bool :=
  (code c =? 32) || ((9 <=? code c) && (code c <=? 13)).

(** Value of a character as a digit of the given base, as [strtoull] reads
    it. *)
Definition digit_in (base : Z) (c : ascii) : option Z :=
  let n := code c in
  let d :=
    if (48 <=? n) && (n <=? 57) then n - 48
    else if (97 <=? n) && (n <=? 122) then n - 87
    else if (65 <=? n) && (n <=? 90) then n - 55
    else 36 in
  if d <? base then Some d else None.

(** Longest run of digits at the head of [s]: accumulated value and number of
    characters read. *)
Fixpoint scan_digits (base : Z) (s : cstr) (acc : Z) (n : nat) : Z * nat :=
  match s with
  | c :: r =>
      match digit_in base c with
      | Some d => scan_digits base r (acc * base + d) (S n)
      | None => (acc, n)
      end
  | [] => (acc, n)
  end.

Fixpoint skip_space (s : cstr) (idx : nat) : nat :=
  match s with
  | c :: r => if isspace c then skip_space r (S idx) else idx
  | [] => idx
  end.

Definition is_x (c : ascii) : bool := (code c =? 120) || (code c =? 88).

(** Modelled from the spec: [std::stoull(s, &idx, 0)] belongs to the C++
    standard library, not to this repository; the specification describes it
    as "a strict integer parser accepting decimal and base-prefixed ([0x],
    leading [0]) notation".  This is [strtoull] with base 0: leading white
    space, an optional sign, the base prefix, then digits; no digit raises
    [std::invalid_argument], a magnitude above [ULLONG_MAX] raises
    [std::out_of_range], and a minus sign negates modulo 2^64.  The result is
    the value and [idx], the number of characters consumed. *)
Definition stoull (s : cstr) : result (Z * nat) :=
  let ws := skip_space s 0 in
  let s1 := skipn ws s in
  let '(neg, sg) :=
    match s1 with
    | c :: _ =>
        if code c =? 45 then (true, 1%nat)
        else if code c =? 43 then (false, 1%nat)
        else (false, 0%nat)
    | [] => (false, 0%nat)
    end in
  let s2 := skipn sg s1 in
  let '(base, pre) :=
    match s2 with
    | z :: x :: h :: _ =>
        if (code z =? 48) && is_x x &&
           match digit_in 16 h with Some _ => true | None => false end
        then (16, 2%nat)
        else if code z =? 48 then (8, 0%nat) else (10, 0%nat)
    | z :: _ => if code z =? 48 then (8, 0%nat) else (10, 0%nat)
    | [] => (10, 0%nat)
    end in
  let '(v, n) := scan_digits base (skipn pre s2) 0 0 in
  match n with
  | O => Throw (invalid_argument "stoull")
  | _ =>
      if ULLONG_MAX <? v then Throw (out_of_range "stoull")
      else Ok ((if neg then (- v) mod 2 ^ 64 else v), (ws + sg + pre + n)%nat)
  end.

(** [parseTo<uint64_t>(const std::string&)], util.cpp lines 604-619. *)
Definition parseTo_uint64 (s : cstr) : result Z :=
  let L := List.length s in
  match stoull s with
  | Throw (invalid_argument _) => Throw (NoConvert "Invalid input : ")
  | Throw (out_of_range _) => Throw (NoConvert "Out of range : ")
  | Throw e => Throw e
  | Ok (ret, idx) =>
      let idx := skip_space (skipn idx s) idx in
      if (idx <? L)%nat
      then Throw (NoConvert "Extraneous characters after integer: ")
      else Ok ret
  end.

(** ** Socket address records *)

(** Modelled from the spec: the address family tags, the presentation
    lengths and the well-known addresses come from the system headers
    ([<sys/socket.h>], [<netinet/in.h>]), which are not part of this
    repository.  The tags are the Linux values; [INET_ADDRSTRLEN] and
    [INET6_ADDRSTRLEN] are the POSIX ones. *)
Definition AF_UNSPEC : Z := 0.
Definition AF_INET : Z := 2.
Definition AF_INET6 : Z := 10.
Definition INET_ADDRSTRLEN : Z := 16.
Definition INET6_ADDRSTRLEN : Z := 46.
Definition INADDR_ANY : Z := 0.
Definition INADDR_LOOPBACK : Z := 0x7f000001.
Definition IN6ADDR_ANY_INIT : list Z := repeat 0 16.
Definition IN6ADDR_LOOPBACK_INIT : list Z := repeat 0 15 ++ [1].

Record sockaddr_in : Type := {
  sin_port : Z;        (* 16 bits, network byte order *)
  s_addr : Z           (* 32 bits, network byte order *)
}.

Record sockaddr_in6 : Type := {
  sin6_port : Z;       (* 16 bits, network byte order *)
  sin6_flowinfo : Z;
  s6_addr : list Z;    (* 16 bytes *)
  sin6_scope_id : Z    (* 32 bits *)
}.

(** Modelled from the spec: the declaration of [class SockAddr] is in a
    header that is not under src/.  The specification (sections 3 and 9)
    describes its storage: a union of the native records, tagged by the
    family, holding a 32-bit address and a 16-bit port (IPv4) or sixteen
    address bytes, a 16-bit port and a 32-bit scope id (IPv6); a
    default-constructed value is unspecified. *)
Record SockAddr : Type := {
  sa_family : Z;
  st_in : sockaddr_in;
  st_in6 : sockaddr_in6
}.

(** [store{}]: every byte zero. *)
Definition store_zero : SockAddr :=
  {| sa_family := AF_UNSPEC;
     st_in := {| sin_port := 0; s_addr := 0 |};
     st_in6 := {| sin6_port := 0; sin6_flowinfo := 0;
                  s6_addr := repeat 0 16; sin6_scope_id := 0 |} |}.

Definition set_family (a : SockAddr) (af : Z) : SockAddr :=
  {| sa_family := af; st_in := st_in a; st_in6 := st_in6 a |}.

Definition set_sin_port (a : SockAddr) (p : Z) : SockAddr :=
  {| sa_family := sa_family a;
     st_in := {| sin_port := p; s_addr := s_addr (st_in a) |};
     st_in6 := st_in6 a |}.

Definition set_s_addr (a : SockAddr) (x : Z) : SockAddr :=
  {| sa_family := sa_family a;
     st_in := {| sin_port := sin_port (st_in a); s_addr := x |};
     st_in6 := st_in6 a |}.

Definition set_sin6_port (a : SockAddr) (p : Z) : SockAddr :=
  {| sa_family := sa_family a;
     st_in := st_in a;
     st_in6 := {| sin6_port := p;
                  sin6_flowinfo := sin6_flowinfo (st_in6 a);
                  s6_addr := s6_addr (st_in6 a);
                  sin6_scope_id := sin6_scope_id (st_in6 a) |} |}.

Definition set_s6_addr (a : SockAddr) (b : list Z) : SockAddr :=
  {| sa_family := sa_family a;
     st_in := st_in a;
     st_in6 := {| sin6_port := sin6_port (st_in6 a);
                  sin6_flowinfo := sin6_flowinfo (st_in6 a);
                  s6_addr := b;
                  sin6_scope_id := sin6_scope_id (st_in6 a) |} |}.

(** [memcpy(&l[i], src, |src|)] on a byte array. *)
Definition memcpy_at (l : list Z) (i : nat) (src : list Z) : list Z :=
  firstn i l ++ src ++ skipn (i + List.length src) l.

Definition bytes_eqb (a b : list Z) : bool :=
  (List.length a =? List.length b)%nat &&
  forallb (fun p => fst p =? snd p) (combine a b).

(** Modelled from the spec: the classification macros of [<netinet/in.h>]
    are not part of this repository; the specification gives their meaning
    (all-zero bytes, [::1], prefix [ff00::/8], range [224.0.0.0/4]). *)
Definition IN6_IS_ADDR_UNSPECIFIED (a : list Z) : bool := bytes_eqb a IN6ADDR_ANY_INIT.
Definition IN6_IS_ADDR_LOOPBACK (a : list Z) : bool := bytes_eqb a IN6ADDR_LOOPBACK_INIT.
Definition IN6_IS_ADDR_MULTICAST (a : list Z) : bool := nth 0 a 0 =? 0xff.
Definition IN_MULTICAST (x : Z) : bool := Z.land x 0xf0000000 =? 0xe0000000.

(** What [evutil_inet_ntop(af, src, buf, len)] leaves behind: the text it
    wrote into [buf], or a null return, in which case [buf] (a local array
    that was never initialised) reads as whatever it happens to hold. *)
Inductive ntop_result : Type :=
| ntop_text (text : cstr)
| ntop_null (buf : cstr).

Definition to_ushort (x : Z) : Z := x mod 65536.

(** Decimal digits of a non-negative number, as [operator<<] prints an
    unsigned value on a stream with default flags. *)
Fixpoint dec_digits (fuel : nat) (n : Z) (acc : cstr) : cstr :=
  match fuel with
  | O => acc
  | S f =>
      let acc' := ascii_of_nat (Z.to_nat (48 + n mod 10)) :: acc in
      if n <? 10 then acc' else dec_digits f (n / 10) acc'
  end.

Definition dec (n : Z) : cstr := dec_digits 20 n [].

Module Model.
Section Platform.

(** Byte order of the host, and the two converters of libevent
    ([evutil_inet_pton], [evutil_inet_ntop]): external to this repository and
    platform dependent, so the code is modelled over any of them.
    [inet_pton af text] is [Some bytes] (the address in network order) when
    the call returns a positive value. *)
Variable big_endian : bool.
Variable inet_pton : Z -> cstr -> option (list Z).
Variable inet_ntop : Z -> list Z -> Z -> ntop_result.

Definition bswap16 (x : Z) : Z := (x mod 256) * 256 + (x / 256) mod 256.

Definition htons (x : Z) : Z :=
  let x := x mod 65536 in if big_endian then x else bswap16 x.

Definition ntohs (x : Z) : Z := htons x.

(** The four bytes of a 32-bit value in memory order, and back. *)
Definition bytes_of_u32 (x : Z) : list Z :=
  let be := [(x / 2 ^ 24) mod 256; (x / 2 ^ 16) mod 256; (x / 2 ^ 8) mod 256; x mod 256] in
  if big_endian then be else rev be.

Definition u32_of_bytes (b : list Z) : Z :=
  let b := if big_endian then b else rev b in
  nth 0 b 0 * 2 ^ 24 + nth 1 b 0 * 2 ^ 16 + nth 2 b 0 * 2 ^ 8 + nth 3 b 0.

Definition bswap32 (x : Z) : Z :=
  (x mod 256) * 2 ^ 24 + ((x / 2 ^ 8) mod 256) * 2 ^ 16 +
  ((x / 2 ^ 16) mod 256) * 2 ^ 8 + (x / 2 ^ 24) mod 256.

Definition htonl (x : Z) : Z :=
  let x := x mod 2 ^ 32 in if big_endian then x else bswap32 x.

Definition ntohl (x : Z) : Z := htonl x.

(** [SockAddr::SockAddr(int af)], lines 260-270. *)
Definition SockAddr_af (af : Z) : result SockAddr :=
  let store := set_family store_zero af in
  if negb (af =? AF_INET) && negb (af =? AF_INET6) && negb (af =? AF_UNSPEC)
  then Throw (invalid_argument "Unsupported address family")
  else Ok store.

Definition family (self : SockAddr) : Z := sa_family self.

(** [SockAddr::port], lines 303-312. *)
Definition port (self : SockAddr) : Z :=
  if sa_family self =? AF_INET then ntohs (sin_port (st_in self))
  else if sa_family self =? AF_INET6 then ntohs (sin6_port (st_in6 self))
  else 0.

(** [SockAddr::setPort(unsigned short)], lines 314-324; the result is the
    object after the call. *)
Definition setPort (self : SockAddr) (port : Z) : result SockAddr :=
  if sa_family self =? AF_INET then Ok (set_sin_port self (htons port))
  else if sa_family self =? AF_INET6 then Ok (set_sin6_port self (htons port))
  else Throw (logic_error "SockAddr: set family before port").

(** Pointers into [name]: [None] is the null pointer, which compares below
    every position of the string. *)
Definition is_null (p : option nat) : bool :=
  match p with None => true | Some _ => false end.

Definition ptr_eqb (p q : option nat) : bool :=
  match p, q with
  | Some i, Some j => (i =? j)%nat
  | None, None => true
  | _, _ => false
  end.

Definition ptr_gtb (p q : option nat) : bool :=
  match p, q with
  | Some i, Some j => (j <? i)%nat
  | Some _, None => true
  | None, _ => false
  end.

Definition offset (p : option nat) : nat :=
  match p with Some i => i | None => 0%nat end.

(** Conversion to [size_t] of a difference of two pointers into one string:
    the only wrap-around is that of a negative difference. *)
Definition size_t_of (d : Z) : Z := if d <? 0 then d + 2 ^ 64 else d.

(** [sizeof(scratch)], line 349. *)
Definition sizeof_scratch : Z := INET6_ADDRSTRLEN + 1.

(** What the first half of [setAddress] settles: the family, the address
    text handed to the converter and the port text, if any. *)
Record pieces : Type := {
  pc_family : Z;
  pc_addr : cstr;
  pc_port : option cstr
}.

(** [SockAddr::setAddress], lines 339-403: the bracket check and the four
    notations. *)
Definition setAddress_pieces (name : cstr) : result pieces :=
  let firstc := strchr name ":" in
  let lastc := strrchr name ":" in
  let openb := strchr name "[" in
  let closeb := strrchr name "]" in
  if xorb (is_null openb) (is_null closeb)
  then Throw (runtime_error "IPv6 with mismatched brackets ")
  else if is_null firstc && is_null openb then
    Ok {| pc_family := AF_INET; pc_addr := name; pc_port := None |}
  else if negb (is_null firstc) && ptr_eqb firstc lastc && is_null openb then
    let addrlen := offset firstc in
    if sizeof_scratch <=? Z.of_nat addrlen
    then Throw (runtime_error "IPv4 address too long ")
    else Ok {| pc_family := AF_INET;
               pc_addr := firstn addrlen name;
               pc_port := Some (skipn (offset lastc + 1) name) |}
  else if negb (is_null firstc) && negb (ptr_eqb firstc lastc) && is_null openb then
    Ok {| pc_family := AF_INET6; pc_addr := name; pc_port := None |}
  else if negb (is_null openb) then
    let addrlen := size_t_of (Z.of_nat (offset closeb) - Z.of_nat (offset openb) - 1) in
    if sizeof_scratch <=? addrlen
    then Throw (runtime_error "IPv6 address too long ")
    else Ok {| pc_family := AF_INET6;
               pc_addr := firstn (Z.to_nat addrlen) (skipn (offset openb + 1) name);
               pc_port := if ptr_gtb lastc closeb
                          then Some (skipn (offset lastc + 1) name)
                          else None |}
  else Throw (runtime_error "Invalid IP address form ").

(** [SockAddr::setAddress], lines 405-413: conversion of the address text,
    then the port.  [temp] is a default-constructed (all-zero) [SockAddr];
    the result is the new value of [*this], which the call leaves untouched
    when it throws. *)
Definition setAddress_finish (pc : pieces) (defport : Z) : result SockAddr :=
  let temp := set_family store_zero (pc_family pc) in
  match inet_pton (pc_family pc) (pc_addr pc) with
  | None => Throw (runtime_error "Not a valid IP address ")
  | Some bytes =>
      let temp :=
        if pc_family pc =? AF_INET
        then set_s_addr temp (u32_of_bytes bytes)
        else set_s6_addr temp bytes in
      match pc_port pc with
      | Some port => n <- parseTo_uint64 port ;; setPort temp (to_ushort n)
      | None => setPort temp defport
      end
  end.

Definition setAddress (name : cstr) (defport : Z) : result SockAddr :=
  pc <- setAddress_pieces name ;; setAddress_finish pc defport.

(** [SockAddr::SockAddr(const char *address, unsigned short port)], lines
    272-276: the specification's [parseAddress]. *)
Definition parseAddress (address : cstr) (port : Z) : result SockAddr :=
  _ <- SockAddr_af AF_UNSPEC ;; setAddress address port.

(** [SockAddr::isAny], [isLO], [isMCast], lines 416-447. *)
Definition isAny (self : SockAddr) : bool :=
  if sa_family self =? AF_INET then s_addr (st_in self) =? htonl INADDR_ANY
  else if sa_family self =? AF_INET6 then IN6_IS_ADDR_UNSPECIFIED (s6_addr (st_in6 self))
  else false.

Definition isLO (self : SockAddr) : bool :=
  if sa_family self =? AF_INET then s_addr (st_in self) =? htonl INADDR_LOOPBACK
  else if sa_family self =? AF_INET6 then IN6_IS_ADDR_LOOPBACK (s6_addr (st_in6 self))
  else false.

Definition isMCast (self : SockAddr) : bool :=
  if sa_family self =? AF_INET then IN_MULTICAST (ntohl (s_addr (st_in self)))
  else if sa_family self =? AF_INET6 then IN6_IS_ADDR_MULTICAST (s6_addr (st_in6 self))
  else false.

(** [SockAddr::map4to6], lines 449-468. *)
Definition map4to6 (self : SockAddr) : result SockAddr :=
  let ret := store_zero in
  if family self =? AF_INET then
    let ret := set_family ret AF_INET6 in
    let ret := set_s6_addr ret (memcpy_at (s6_addr (st_in6 ret)) 10 [0xff]) in
    let ret := set_s6_addr ret (memcpy_at (s6_addr (st_in6 ret)) 11 [0xff]) in
    let ret := set_s6_addr ret
                 (memcpy_at (s6_addr (st_in6 ret)) 12 (bytes_of_u32 (s_addr (st_in self)))) in
    let ret := set_sin6_port ret (sin_port (st_in self)) in
    Ok ret
  else if family self =? AF_INET6 then Ok self
  else Throw (logic_error "Invalid address family").

(** [SockAddr::any], lines 477-495. *)
Definition any (af : Z) (port : Z) : result SockAddr :=
  ret <- SockAddr_af af ;;
  if af =? AF_INET then
    Ok (set_sin_port (set_s_addr ret (htonl INADDR_ANY)) (htons port))
  else if af =? AF_INET6 then
    Ok (set_sin6_port (set_s6_addr ret IN6ADDR_ANY_INIT) (htons port))
  else Throw (invalid_argument "Unsupported address family").

(** [SockAddr::loopback], lines 497-515. *)
Definition loopback (af : Z) (port : Z) : result SockAddr :=
  ret <- SockAddr_af af ;;
  if af =? AF_INET then
    Ok (set_sin_port (set_s_addr ret (htonl INADDR_LOOPBACK)) (htons port))
  else if af =? AF_INET6 then
    Ok (set_sin6_port (set_s6_addr ret IN6ADDR_LOOPBACK_INIT) (htons port))
  else Throw (invalid_argument "Unsupported address family").

Definition port_suffix (p : Z) : cstr :=
  if p =? 0 then [] else lit ":" ++ dec p.

Definition scope_suffix (scope : Z) : cstr :=
  if scope =? 0 then [] else lit "%" ++ dec scope.

(** [operator<<(std::ostream&, const SockAddr&)], lines 517-556: the text
    appended to a stream with default formatting flags.  [buf] is
    [INET_ADDRSTRLEN+1] (resp. [INET6_ADDRSTRLEN+1]) bytes long and its last
    byte is cleared after a successful conversion. *)
Definition print (addr : SockAddr) : cstr :=
  if sa_family addr =? AF_INET then
    match inet_ntop AF_INET (bytes_of_u32 (s_addr (st_in addr))) (INET_ADDRSTRLEN + 1) with
    | ntop_text buf => firstn (Z.to_nat INET_ADDRSTRLEN) buf
    | ntop_null buf => lit "<???>" ++ buf
    end ++ port_suffix (ntohs (sin_port (st_in addr)))
  else if sa_family addr =? AF_INET6 then
    match inet_ntop AF_INET6 (s6_addr (st_in6 addr)) (INET6_ADDRSTRLEN + 1) with
    | ntop_text buf => lit "[" ++ firstn (Z.to_nat INET6_ADDRSTRLEN) buf ++ lit "]"
    | ntop_null _ => lit "<???>"
    end ++ scope_suffix (sin6_scope_id (st_in6 addr))
        ++ port_suffix (ntohs (sin6_port (st_in6 addr)))
  else if sa_family addr =? AF_UNSPEC then lit "<>"
  else lit "<???>".

(** [SockAddr::tostring], lines 470-475: the specification's [format]. *)
Definition tostring (self : SockAddr) : cstr := print self.

End Platform.
End Model.

(** ** A reference instance of the external converters *)

Module Ref.

(** Modelled from the spec: [evutil_inet_pton] and [evutil_inet_ntop] are
    libevent's (on most platforms the system's [inet_pton] and [inet_ntop]),
    not part of this repository.  The specification calls them the
    "presentation<->binary address converter per family" for the "standard
    dotted-quad" and "standard colon-hex presentation form".  This instance
    follows the classic BSD routines and serves the concrete runs below;
    the general statements hold for any converter. *)
Definition is_digit (c : ascii) : bool := (48 <=? code c) && (code c <=? 57).

(** Dotted quad: four decimal octets of at most 255, no leading zero. *)
Fixpoint pton4_loop (src : cstr) (done : list Z) (cur : Z) (saw : bool)
  : option (list Z) :=
  match src with
  | [] => if saw && (List.length done =? 3)%nat then Some (rev (cur :: done)) else None
  | ch :: r =>
      if is_digit ch then
        let new := cur * 10 + (code ch - 48) in
        if saw && (cur =? 0) then None
        else if 255 <? new then None
        else if negb saw && (3 <? List.length done)%nat then None
        else pton4_loop r done new true
      else if (code ch =? 46) && saw then
        if (List.length done =? 3)%nat then None
        else pton4_loop r (cur :: done) 0 false
      else None
  end.

Definition inet_pton4 (src : cstr) : option (list Z) := pton4_loop src [] 0 false.

Definition inet_ntop4_text (b : list Z) : cstr :=
  dec (nth 0 b 0) ++ lit "." ++ dec (nth 1 b 0) ++ lit "." ++
  dec (nth 2 b 0) ++ lit "." ++ dec (nth 3 b 0).

(** Colon-hex: groups of one to four hex digits, at most one [::], an
    optional dotted quad in the last position. *)
Fixpoint split_colon (s : cstr) (cur : cstr) : list cstr :=
  match s with
  | [] => [rev cur]
  | c :: r =>
      if code c =? 58 then rev cur :: split_colon r []
      else split_colon r (c :: cur)
  end.

(** Splits at the first [::]. *)
Fixpoint cut_dcolon (s : cstr) (left : cstr) : option (cstr * cstr) :=
  match s with
  | a :: ((b :: r) as t) =>
      if (code a =? 58) && (code b =? 58) then Some (rev left, r)
      else cut_dcolon t (a :: left)
  | _ => None
  end.

Definition hex_group (g : cstr) : option Z :=
  match g with
  | [] => None
  | _ =>
      let '(v, n) := scan_digits 16 g 0 0 in
      if (n =? List.length g)%nat && (n <=? 4)%nat then Some v else None
  end.

(** Words of a colon-separated run of groups; only the last group may be a
    dotted quad when [quad] is set. *)
Fixpoint group_words (gs : list cstr) (quad : bool) : option (list Z) :=
  match gs with
  | [] => Some []
  | [g] =>
      match hex_group g with
      | Some w => Some [w]
      | None =>
          if quad then
            match inet_pton4 g with
            | Some [a; b; c; d] => Some [a * 256 + b; c * 256 + d]
            | _ => None
            end
          else None
      end
  | g :: r =>
      match hex_group g, group_words r quad with
      | Some w, Some ws => Some (w :: ws)
      | _, _ => None
      end
  end.

Definition run_words (s : cstr) (quad : bool) : option (list Z) :=
  match s with
  | [] => Some []
  | _ => group_words (split_colon s []) quad
  end.

Definition bytes_of_words (ws : list Z) : list Z :=
  flat_map (fun w => [w / 256; w mod 256]) ws.

Definition inet_pton6 (src : cstr) : option (list Z) :=
  match cut_dcolon src [] with
  | None =>
      match run_words src true with
      | Some ws => if (List.length ws =? 8)%nat then Some (bytes_of_words ws) else None
      | None => None
      end
  | Some (l, r) =>
      match run_words l false, run_words r true with
      | Some wl, Some wr =>
          let n := (List.length wl + List.length wr)%nat in
          if (n <=? 7)%nat
          then Some (bytes_of_words (wl ++ repeat 0 (8 - n) ++ wr))
          else None
      | _, _ => None
      end
  end.

Fixpoint words_of_bytes (b : list Z) : list Z :=
  match b with
  | hi :: lo :: r => (hi * 256 + lo) :: words_of_bytes r
  | _ => []
  end.

Definition hex_char (d : Z) : ascii :=
  ascii_of_nat (Z.to_nat (if d <? 10 then 48 + d else 87 + d)).

Fixpoint hex_digits (fuel : nat) (n : Z) (acc : cstr) : cstr :=
  match fuel with
  | O => acc
  | S f =>
      let acc' := hex_char (n mod 16) :: acc in
      if n <? 16 then acc' else hex_digits f (n / 16) acc'
  end.

Definition hex (n : Z) : cstr := hex_digits 16 n [].

Definition longer (cur best : option (nat * nat)) : option (nat * nat) :=
  match cur, best with
  | None, _ => best
  | Some _, None => cur
  | Some (_, l), Some (_, bl) => if (bl <? l)%nat then cur else best
  end.

(** Longest run of zero words, the first one among equals. *)
Fixpoint best_run (ws : list Z) (i : nat) (cur best : option (nat * nat))
  : option (nat * nat) :=
  match ws with
  | [] => longer cur best
  | w :: r =>
      if w =? 0 then
        best_run r (S i)
          (match cur with None => Some (i, 1%nat) | Some (b, l) => Some (b, S l) end)
          best
      else best_run r (S i) None (longer cur best)
  end.

Fixpoint ntop6_loop (ws : list Z) (i : nat) (best : option (nat * nat))
  (encapsulated : bool) (quad : cstr) : cstr :=
  match ws with
  | [] =>
      match best with
      | Some (b, l) => if (b + l =? 8)%nat then lit ":" else []
      | None => []
      end
  | w :: r =>
      let inside :=
        match best with
        | Some (b, l) => (b <=? i)%nat && (i <? b + l)%nat
        | None => false
        end in
      if inside then
        (if (i =? Model.offset (option_map fst best))%nat then lit ":" else [])
        ++ ntop6_loop r (S i) best encapsulated quad
      else
        (if (i =? 0)%nat then [] else lit ":") ++
        (if (i =? 6)%nat && encapsulated then quad
         else hex w ++ ntop6_loop r (S i) best encapsulated quad)
  end.

Definition inet_ntop6_text (b : list Z) : cstr :=
  let ws := words_of_bytes b in
  let best :=
    match best_run ws 0 None None with
    | Some (base, len) => if (len <? 2)%nat then None else Some (base, len)
    | None => None
    end in
  let encapsulated :=
    match best with
    | Some (base, len) =>
        (base =? 0)%nat &&
        ((len =? 6)%nat || ((len =? 5)%nat && (nth 5 ws 0 =? 0xffff)))
    | None => false
    end in
  ntop6_loop ws 0 best encapsulated (inet_ntop4_text (skipn 12 b)).

(** Modelled from the spec: the "presentation->binary converter selected by
    family" (libevent's [evutil_inet_pton]). *)
Definition inet_pton (af : Z) (src : cstr) : option (list Z) :=
  if af =? AF_INET then inet_pton4 src
  else if af =? AF_INET6 then inet_pton6 src
  else None.

(** Modelled from the spec: the binary->text converter (libevent's
    [evutil_inet_ntop]).  The text is delivered when it fits the buffer with
    its terminator. *)
Definition inet_ntop (af : Z) (src : list Z) (len : Z) : ntop_result :=
  let deliver text :=
    if Z.of_nat (List.length text) <? len then ntop_text text else ntop_null [] in
  if af =? AF_INET then deliver (inet_ntop4_text src)
  else if af =? AF_INET6 then deliver (inet_ntop6_text src)
  else ntop_null [].

(** The concrete runs are on a little-endian host. *)
Definition parseAddress := Model.parseAddress false inet_pton.
Definition tostring := Model.tostring false inet_ntop.

End Ref.

(** ** Vocabulary of the specification *)

Definition too_long4 : exn := runtime_error "IPv4 address too long ".
Definition too_long6 : exn := runtime_error "IPv6 address too long ".
Definition mismatched : exn := runtime_error "IPv6 with mismatched brackets ".

(** The notation of an input in the specification's words (section 4.1,
    rules 1 to 4): family, address literal and port text. *)
Inductive notation_of (name : cstr) : Z -> cstr -> option cstr -> Prop :=
| bare_ipv4 :
    absent ":" name -> absent "[" name -> absent "]" name ->
    notation_of name AF_INET name None
| ipv4_port pre post :
    name = pre ++ ":"%char :: post ->
    occurrences ":" name = 1%nat -> absent "[" name -> absent "]" name ->
    notation_of name AF_INET pre (Some post)
| bare_ipv6 :
    (1 < occurrences ":" name)%nat -> absent "[" name -> absent "]" name ->
    notation_of name AF_INET6 name None
| bracket_no_port pre body rest :
    name = pre ++ "["%char :: body ++ "]"%char :: rest ->
    absent "[" pre -> absent "]" rest -> absent ":" rest ->
    notation_of name AF_INET6 body None
| bracket_port pre body rest port :
    name = pre ++ "["%char :: body ++ "]"%char :: rest ++ ":"%char :: port ->
    absent "[" pre -> absent "]" (rest ++ port) -> absent ":" port ->
    notation_of name AF_INET6 body (Some port).

(** A literal cut out of the input (not the input itself) that does not fit
    [scratch]. *)
Definition extracted_too_long (name addr : cstr) : bool :=
  (List.length addr <? List.length name)%nat &&
  (Model.sizeof_scratch <=? Z.of_nat (List.length addr)).

(** Text after the last colon of what follows the closing bracket. *)
Definition port_text (rest : cstr) : option cstr :=
  match strrchr rest ":" with
  | Some i => Some (skipn (S i) rest)
  | None => None
  end.

(** Exactly one of the two brackets occurs. *)
Definition unpaired_bracket (name : cstr) : Prop :=
  (occurrences "[" name = 0%nat /\ occurrences "]" name <> 0%nat) \/
  (occurrences "[" name <> 0%nat /\ occurrences "]" name = 0%nat).

(** [format(parseAddress(format(v), p))]. *)
Definition reformat (big_endian : bool)
  (inet_pton : Z -> cstr -> option (list Z))
  (inet_ntop : Z -> list Z -> Z -> ntop_result)
  (v : SockAddr) (p : Z) : result cstr :=
  v' <- Model.parseAddress big_endian inet_pton (Model.tostring big_endian inet_ntop v) p ;;
  Ok (Model.tostring big_endian inet_ntop v').

(** Bytes handed to the converter by [operator<<]. *)
Definition address_bytes (big_endian : bool) (v : SockAddr) : list Z :=
  if sa_family v =? AF_INET then Model.bytes_of_u32 big_endian (s_addr (st_in v))
  else s6_addr (st_in6 v).

Definition scope_id (v : SockAddr) : Z :=
  if sa_family v =? AF_INET6 then sin6_scope_id (st_in6 v) else 0.

(** Size of [buf] in [operator<<]. *)
Definition sizeof_buf (af : Z) : Z :=
  if af =? AF_INET then INET_ADDRSTRLEN + 1 else INET6_ADDRSTRLEN + 1.

Definition digit_char (d : Z) : ascii := ascii_of_nat (Z.to_nat (48 + d)).

Definition decimal (ds : cstr) : Prop :=
  Forall (fun c => exists d, 0 <= d < 10 /\ c = digit_char d) ds.

(** Sample values on a little-endian host: 127.0.0.1:5075, 0.0.0.0 without
    port (what [any(AF_INET, 0)] returns), and [::1] port 80 on interface 5
    (a value built from a native [sockaddr_in6]). *)
Definition sample_lo4 : SockAddr :=
  {| sa_family := AF_INET;
     st_in := {| sin_port := Model.htons false 5075;
                 s_addr := Model.htonl false INADDR_LOOPBACK |};
     st_in6 := st_in6 store_zero |}.

Definition sample_any4 : SockAddr := set_family store_zero AF_INET.

Definition sample_scoped6 : SockAddr :=
  {| sa_family := AF_INET6;
     st_in := st_in store_zero;
     st_in6 := {| sin6_port := Model.htons false 80; sin6_flowinfo := 0;
                  s6_addr := IN6ADDR_LOOPBACK_INIT; sin6_scope_id := 5 |} |}.

(** A converter that always fails and leaves [buf] reading as [residue]. *)
Definition failing_ntop (residue : cstr) : Z -> list Z -> Z -> ntop_result :=
  fun _ _ _ => ntop_null residue.

(** * More of util.cpp *)

(** ** Text output on a stream *)

(** The manipulators of the C++ standard library the code prints with:
    [std::hex] (lower-case digits, no prefix), and [std::setw] with
    [std::setfill], which pad on the left up to the width. *)
Definition hex_digit (d : Z) : ascii :=
  ascii_of_nat (Z.to_nat (if d <? 10 then 48 + d else 87 + d)).

Fixpoint hex_digits (fuel : nat) (n : Z) (acc : cstr) : cstr :=
  match fuel with
  | O => acc
  | S f =>
      let acc' := hex_digit (n mod 16) :: acc in
      if n <? 16 then acc' else hex_digits f (n / 16) acc'
  end.

Definition hex_text (n : Z) : cstr := hex_digits 16 n [].

Definition setw (w : nat) (fill : ascii) (s : cstr) : cstr :=
  repeat fill (w - List.length s) ++ s.

(** ** Escaping of text for messages *)

Record Escaper : Type := {
  val : option cstr;     (* [None]: null pointer *)
  count : nat
}.

(** [Escaper::Escaper(const char* v)], lines 171-174. *)
Definition Escaper_of (v : option cstr) : Escaper :=
  {| val := v; count := match v with Some s => List.length s | None => 0%nat end |}.

(** The [switch] of lines 184-194: the letter that follows the backslash. *)
Definition escape_letter (c : ascii) : option ascii :=
  let n := code c in
  if n =? 7 then Some "a"%char
  else if n =? 8 then Some "b"%char
  else if n =? 12 then Some "f"%char
  else if n =? 10 then Some "n"%char
  else if n =? 13 then Some "r"%char
  else if n =? 9 then Some "t"%char
  else if n =? 11 then Some "v"%char
  else if n =? 92 then Some (ascii_of_nat 92)
  else if n =? 39 then Some "'"%char
  else if n =? 34 then Some (ascii_of_nat 34)
  else None.

(** One turn of the loop of lines 182-205. *)
Definition escape_char (c : ascii) : cstr :=
  match escape_letter c with
  | Some next => [ascii_of_nat 92; next]
  | None =>
      if (32 <=? code c) && (code c <=? 126) then [c]
      else [ascii_of_nat 92; "x"%char] ++ setw 2 "0" (hex_text (Z.land (code c) 0xff))
  end.

(** [operator<<(std::ostream&, const Escaper&)], lines 176-208. *)
Definition print_Escaper (esc : Escaper) : cstr :=
  match val esc with
  | None => lit "<NULL>"
  | Some s => flat_map escape_char (firstn (count esc) s)
  end.

(** [escape(s)] as the messages use it. *)
Definition escape (s : cstr) : cstr := print_Escaper (Escaper_of (Some s)).

(** [operator<<(std::ostream&, const ServerGUID&)], lines 213-221; a
    [ServerGUID] is an array of bytes. *)
Definition print_ServerGUID (guid : list Z) : cstr :=
  setw 2 " " (lit "0x") ++ flat_map (fun b => setw 2 "0" (hex_text b)) guid.

(** Characters between ' ' and '~'. *)
Definition printable (c : ascii) : Prop := 32 <= code c <= 126.

(** Printable characters other than the backslash and the two quotes. *)
Definition plain (c : ascii) : Prop :=
  printable c /\ code c <> 92 /\ code c <> 39 /\ code c <> 34.

Definition is_byte (b : Z) : Prop := 0 <= b < 256.

(** Reads back one escaped character from the head of a text. *)
Definition unescape_letter (c : ascii) : option ascii :=
  let n := code c in
  if n =? 97 then Some (ascii_of_nat 7)
  else if n =? 98 then Some (ascii_of_nat 8)
  else if n =? 102 then Some (ascii_of_nat 12)
  else if n =? 110 then Some (ascii_of_nat 10)
  else if n =? 114 then Some (ascii_of_nat 13)
  else if n =? 116 then Some (ascii_of_nat 9)
  else if n =? 118 then Some (ascii_of_nat 11)
  else if n =? 92 then Some (ascii_of_nat 92)
  else if n =? 39 then Some (ascii_of_nat 39)
  else if n =? 34 then Some (ascii_of_nat 34)
  else None.

Definition unescape_head (t : cstr) : option (ascii * cstr) :=
  match t with
  | [] => None
  | c :: r =>
      if code c =? 92 then
        match r with
        | x :: r1 =>
            if code x =? 120 then
              match r1 with
              | h :: l :: r' =>
                  match digit_in 16 h, digit_in 16 l with
                  | Some a, Some b => Some (ascii_of_nat (Z.to_nat (a * 16 + b)), r')
                  | _, _ => None
                  end
              | _ => None
              end
            else option_map (fun d => (d, r1)) (unescape_letter x)
        | [] => None
        end
      else Some (c, r)
  end.

Definition guid_head (t : cstr) : option (Z * cstr) :=
  match t with
  | h :: l :: r =>
      match digit_in 16 h, digit_in 16 l with
      | Some a, Some b => Some (a * 16 + b, r)
      | _, _ => None
      end
  | _ => None
  end.

(** Decidable forms of [printable] and [plain], and the digits of a
    server identifier. *)
Definition printableb (c : ascii) : bool := (32 <=? code c) && (code c <=? 126).

Definition plainb (c : ascii) : bool :=
  printableb c && negb (code c =? 92) && negb (code c =? 39) && negb (code c =? 34).

Definition guid_digits (guid : list Z) : cstr :=
  flat_map (fun b => setw 2 "0" (hex_text b)) guid.

(** The two lower-case hexadecimal digits of a byte, high nibble first,
    written out to state what the printed identifier holds. *)
Definition lower_hex_digit (d : Z) : ascii :=
  nth (Z.to_nat d) (lit "0123456789abcdef") " "%char.

Definition two_hex_digits (b : Z) : cstr :=
  [lower_hex_digit (b / 16); lower_hex_digit (b mod 16)].

(** ** The signed integer parser *)

Definition LLONG_MAX : Z := 2 ^ 63 - 1.
Definition LLONG_MIN : Z := - 2 ^ 63.

(** Sign and base prefix as [strtoull] and [strtoll] read them with base 0. *)
Definition sign_of (s1 : cstr) : bool * nat :=
  match s1 with
  | c :: _ =>
      if code c =? 45 then (true, 1%nat)
      else if code c =? 43 then (false, 1%nat)
      else (false, 0%nat)
  | [] => (false, 0%nat)
  end.

Definition base_of (s2 : cstr) : Z * nat :=
  match s2 with
  | z :: x :: h :: _ =>
      if (code z =? 48) && is_x x &&
         match digit_in 16 h with Some _ => true | None => false end
      then (16, 2%nat)
      else if code z =? 48 then (8, 0%nat) else (10, 0%nat)
  | z :: _ => if code z =? 48 then (8, 0%nat) else (10, 0%nat)
  | [] => (10, 0%nat)
  end.

(** The scan both conversions share: sign, magnitude, number of digits and
    number of characters consumed. *)
Definition strto_scan (s : cstr) : bool * Z * nat * nat :=
  let ws := skip_space s 0 in
  let s1 := skipn ws s in
  let '(neg, sg) := sign_of s1 in
  let s2 := skipn sg s1 in
  let '(base, pre) := base_of s2 in
  let '(v, n) := scan_digits base (skipn pre s2) 0 0 in
  (neg, v, n, (ws + sg + pre + n)%nat).

(** Modelled from the spec: [std::stoll(s, &idx, 0)] belongs to the C++
    standard library, like [std::stoull] above: the same scan, the sign
    applied to the magnitude, and [std::out_of_range] outside
    [LLONG_MIN .. LLONG_MAX]. *)
Definition stoll (s : cstr) : result (Z * nat) :=
  let '(neg, v, n, idx) := strto_scan s in
  match n with
  | O => Throw (invalid_argument "stoll")
  | _ =>
      let r := if neg then - v else v in
      if (r <? LLONG_MIN) || (LLONG_MAX <? r) then Throw (out_of_range "stoll")
      else Ok (r, idx)
  end.

(** [parseTo<int64_t>(const std::string&)], util.cpp lines 621-636. *)
Definition parseTo_int64 (s : cstr) : result Z :=
  let L := List.length s in
  match stoll s with
  | Throw (invalid_argument _) => Throw (NoConvert "Invalid input : ")
  | Throw (out_of_range _) => Throw (NoConvert "Out of range : ")
  | Throw e => Throw e
  | Ok (ret, idx) =>
      let idx := skip_space (skipn idx s) idx in
      if (idx <? L)%nat
      then Throw (NoConvert "Extraneous characters after unsigned: ")
      else Ok ret
  end.

(** A text that cannot continue a numeral: empty, or starting with a
    character that is a digit in no base. *)
Definition stops (t : cstr) : Prop :=
  match t with
  | [] => True
  | c :: _ => digit_in 36 c = None
  end.

Definition spaces (ws : cstr) : Prop := Forall (fun c => isspace c = true) ws.

(** ** Construction from a native address *)

(** [SockAddr::SockAddr(const sockaddr *addr)], lines 278-289; [None] is a
    null pointer.  The [memcpy] of [sizeof(sockaddr_in)] (resp.
    [sizeof(sockaddr_in6)]) bytes fills the view of that family. *)
Definition SockAddr_native (addr : option SockAddr) : result SockAddr :=
  self <- Model.SockAddr_af
            (match addr with Some a => sa_family a | None => AF_UNSPEC end) ;;
  match addr with
  | None => Ok self
  | Some a =>
      if negb (Model.family self =? AF_UNSPEC) && negb (Model.family self =? AF_INET)
         && negb (Model.family self =? AF_INET6)
      then Throw (invalid_argument "Unsupported address family")
      else if negb (Model.family self =? AF_UNSPEC) then
        if Model.family self =? AF_INET
        then Ok {| sa_family := sa_family a; st_in := st_in a; st_in6 := st_in6 self |}
        else Ok {| sa_family := sa_family a; st_in := st_in self; st_in6 := st_in6 a |}
      else Ok self
  end.

(** The families a [SockAddr] is built with. *)
Definition supported (v : SockAddr) : Prop :=
  sa_family v = AF_UNSPEC \/ sa_family v = AF_INET \/ sa_family v = AF_INET6.

(** ** Indentation and detail level of output streams *)

Module Streams.

Definition INT_MIN : Z := - 2 ^ 31.

(** Conversions to [long] and to [int]. *)
Definition wrap_long (x : Z) : Z := (x + 2 ^ 63) mod 2 ^ 64 - 2 ^ 63.
Definition wrap_int (x : Z) : Z := (x + 2 ^ 31) mod 2 ^ 32 - 2 ^ 31.

(** What the code of lines 88-167 reads and writes, seen from one thread:
    the two process-wide slots [indentIndex] and [detailIndex], the counter
    behind [std::ostream::xalloc], and for every stream its [iword] array
    and the text written to it.  Streams are numbered. *)
Record world : Type := {
  xalloc_next : Z;
  indentIndex : Z;
  detailIndex : Z;
  iword : nat -> Z -> Z;
  written : nat -> cstr
}.

Definition initial : world :=
  {| xalloc_next := 0; indentIndex := INT_MIN; detailIndex := INT_MIN;
     iword := fun _ _ => 0; written := fun _ => [] |}.

(** [std::ostream::xalloc()]: a fresh index on every call. *)
Definition xalloc (w : world) : Z * world :=
  (xalloc_next w,
   {| xalloc_next := xalloc_next w + 1; indentIndex := indentIndex w;
      detailIndex := detailIndex w; iword := iword w; written := written w |}).

Definition set_indentIndex (w : world) (i : Z) : world :=
  {| xalloc_next := xalloc_next w; indentIndex := i;
     detailIndex := detailIndex w; iword := iword w; written := written w |}.

Definition set_detailIndex (w : world) (i : Z) : world :=
  {| xalloc_next := xalloc_next w; indentIndex := indentIndex w;
     detailIndex := i; iword := iword w; written := written w |}.

(** [strm.iword(idx) = x]. *)
Definition set_iword (w : world) (strm : nat) (idx : Z) (x : Z) : world :=
  {| xalloc_next := xalloc_next w; indentIndex := indentIndex w;
     detailIndex := detailIndex w;
     iword := fun s i => if (s =? strm)%nat && (i =? idx) then x else iword w s i;
     written := written w |}.

(** [strm << text]. *)
Definition write (w : world) (strm : nat) (text : cstr) : world :=
  {| xalloc_next := xalloc_next w; indentIndex := indentIndex w;
     detailIndex := detailIndex w; iword := iword w;
     written := fun s => if (s =? strm)%nat then written w s ++ text else written w s |}.

(** The slot of an [Indented] or [Detailed], allocated on first use (lines
    109-118 and 135-144): [compare_exchange_strong] stores the new index when
    the slot still holds the expected value. *)
Definition indent_slot (w : world) : Z * world :=
  let idx := indentIndex w in
  if idx =? INT_MIN then
    let '(newidx, w) := xalloc w in
    if indentIndex w =? idx then (newidx, set_indentIndex w newidx)
    else (indentIndex w, w)
  else (idx, w).

Definition detail_slot (w : world) : Z * world :=
  let idx := detailIndex w in
  if idx =? INT_MIN then
    let '(newidx, w) := xalloc w in
    if detailIndex w =? idx then (newidx, set_detailIndex w newidx)
    else (detailIndex w, w)
  else (idx, w).

Record Indented : Type := { i_strm : option nat; i_depth : Z }.
Record Detailed : Type := { d_strm : option nat; d_lvl : Z }.

(** [Indented::Indented(std::ostream&, int depth)], lines 105-120. *)
Definition Indented_ctor (strm : nat) (depth : Z) (w : world) : Indented * world :=
  let '(idx, w) := indent_slot w in
  ({| i_strm := Some strm; i_depth := depth |},
   set_iword w strm idx (wrap_long (iword w strm idx + depth))).

(** [Indented::~Indented()], lines 122-126. *)
Definition Indented_dtor (self : Indented) (w : world) : world :=
  match i_strm self with
  | Some strm =>
      set_iword w strm (indentIndex w)
        (wrap_long (iword w strm (indentIndex w) - i_depth self))
  | None => w
  end.

(** [Detailed::Detailed(std::ostream&, int lvl)], lines 132-149. *)
Definition Detailed_ctor (strm : nat) (lvl : Z) (w : world) : Detailed * world :=
  let '(idx, w) := detail_slot w in
  ({| d_strm := Some strm; d_lvl := wrap_int (iword w strm idx) |},
   set_iword w strm idx lvl).

(** [Detailed::~Detailed()], lines 151-155. *)
Definition Detailed_dtor (self : Detailed) (w : world) : world :=
  match d_strm self with
  | Some strm => set_iword w strm (detailIndex w) (d_lvl self)
  | None => w
  end.

(** [Detailed::level(std::ostream&)], lines 157-167. *)
Definition level (strm : nat) (w : world) : Z * world :=
  let idx := detailIndex w in
  if idx =? INT_MIN then (0, write w strm (lit "Hint: Wrap with pvxs::Detailed()" ++ ["010"%char]))
  else (wrap_int (iword w strm idx), w).

(** [operator<<(std::ostream&, const indent&)], lines 92-103.  [range] is a
    helper of a header that is not under src/: the list of values the loop
    runs over. *)
Definition print_indent (range : Z -> list Z) (strm : nat) (w : world) : world :=
  let idx := indentIndex w in
  if negb (idx =? INT_MIN) then
    let n := iword w strm idx in
    fold_left (fun w _ => write w strm (lit "    ")) (range n) w
  else w.

(** What the operations keep: indices come from [xalloc], the two slots are
    different once allocated, and [iword] holds [long] values. *)
Record wf (w : world) : Prop := {
  wf_next : 0 <= xalloc_next w;
  wf_indent : indentIndex w = INT_MIN \/ 0 <= indentIndex w < xalloc_next w;
  wf_detail : detailIndex w = INT_MIN \/ 0 <= detailIndex w < xalloc_next w;
  wf_distinct : indentIndex w = INT_MIN \/ indentIndex w <> detailIndex w;
  wf_long : forall s i, - 2 ^ 63 <= iword w s i < 2 ^ 63;
  wf_fresh : forall s i, xalloc_next w <= i -> iword w s i = 0
}.

(** Indentation and detail level of a stream as the code reads them. *)
Definition indentation (strm : nat) (w : world) : Z :=
  if indentIndex w =? INT_MIN then 0 else iword w strm (indentIndex w).

Definition detail (strm : nat) (w : world) : Z := fst (level strm w).

Definition is_int (x : Z) : Prop := - 2 ^ 31 <= x < 2 ^ 31.

(** Between two states no call of [xalloc] and no store to either slot. *)
Definition same_slots (w w' : world) : Prop :=
  xalloc_next w' = xalloc_next w /\ indentIndex w' = indentIndex w /\
  detailIndex w' = detailIndex w.

End Streams.

(** ** Interception of SIGINT and SIGTERM *)

Module Signals.

(** What a signal is bound to: [handle] is [SigInt::_handle]. *)
Inductive disposition : Type :=
| SIG_DFL
| SIG_IGN
| handle
| other (n : nat).

(** The process as lines 225-255 see it: the slot [thesig] (the live
    [SigInt], if any, by its identity) and the two dispositions. *)
Record process : Type := {
  thesig : option nat;
  on_INT : disposition;
  on_TERM : disposition
}.

Record SigInt : Type := { this : nat; prevINT : disposition; prevTERM : disposition }.

(** [SigInt::SigInt(handler)], lines 237-247; [signal] returns the previous
    disposition. *)
Definition SigInt_ctor (id : nat) (p : process) : result (SigInt * process) :=
  match thesig p with
  | None =>
      Ok ({| this := id; prevINT := on_INT p; prevTERM := on_TERM p |},
          {| thesig := Some id; on_INT := handle; on_TERM := handle |})
  | Some _ => Throw (logic_error "Only one SigInt allowed")
  end.

(** [SigInt::~SigInt()], lines 249-255. *)
Definition SigInt_dtor (self : SigInt) (p : process) : process :=
  {| thesig := None; on_INT := prevINT self; on_TERM := prevTERM self |}.

(** [SigInt::_handle(int)], lines 228-235: the object whose handler runs. *)
Definition _handle (p : process) : option nat := thesig p.

End Signals.

(** ** One-time initialisation *)

Module Once.

(** Modelled from the spec: [epicsThreadOnce] belongs to EPICS Base, not to
    this repository; the specification calls [threadOnce] "a lazy
    one-time-initialization wrapper".  The flag of [id] is raised once the
    function handed over has returned, and the function runs only while the
    flag is down. *)
Definition epicsThreadOnce {S : Type} (flags : nat -> bool) (id : nat)
  (func : S -> S) (st : S) : (nat -> bool) * S :=
  if flags id then (flags, st)
  else (fun i => if (i =? id)%nat then true else flags i, func st).

(** [onceWrapper], lines 568-577, and [threadOnce], lines 579-585: the
    state the function works on is paired with the [err] field of
    [onceArgs]; [fn] returns the exception it throws, if any. *)
Definition onceWrapper {S : Type} (fn : S -> option exn * S)
  (args : option exn * S) : option exn * S :=
  match fn (snd args) with
  | (Some e, st) => (Some e, st)
  | (None, st) => (fst args, st)
  end.

Definition threadOnce {S : Type} (flags : nat -> bool) (id : nat)
  (fn : S -> option exn * S) (st : S) : result unit * ((nat -> bool) * S) :=
  let '(flags, (err, st)) := epicsThreadOnce flags id (onceWrapper fn) (None, st) in
  match err with
  | Some e => (Throw e, (flags, st))
  | None => (Ok tt, (flags, st))
  end.

End Once.

(** ** More sample values *)

(** 224.0.0.1 on a little-endian host, a server identifier, the values a
    loop over [range(n)] runs through, and an initialisation that fails. *)
Definition sample_mcast4 : SockAddr :=
  {| sa_family := AF_INET;
     st_in := {| sin_port := 0; s_addr := Model.htonl false 0xe0000001 |};
     st_in6 := st_in6 store_zero |}.

Definition sample_guid : list Z := [1; 2; 3; 4; 5; 6; 7; 8; 9; 10; 171; 205].

Definition range_upto (n : Z) : list Z := map Z.of_nat (seq 0 (Z.to_nat n)).

Definition failing_init (st : Z) : option exn * Z :=
  (Some (runtime_error "init failed"), st + 1).

(** * Properties *)

(** ** Byte order *)

Section ByteOrder.
Variable big_endian : bool.
Local Abbreviation htons := (Model.htons big_endian).
Local Abbreviation ntohs := (Model.ntohs big_endian).
Local Abbreviation bytes_of_u32 := (Model.bytes_of_u32 big_endian).
Local Abbreviation u32_of_bytes := (Model.u32_of_bytes big_endian).

Lemma htons_range x : 0 <= htons x < 65536.
Proof.
  unfold Model.htons, Model.bswap16. destruct big_endian.
  - apply Z.mod_pos_bound. lia.
  - Z.div_mod_to_equations. lia.
Qed.

Lemma htons_htons x : 0 <= x < 65536 -> htons (htons x) = x.
Proof.
  intros Hx. unfold Model.htons, Model.bswap16. destruct big_endian.
  - rewrite Z.mod_mod by lia. apply Z.mod_small. lia.
  - Z.div_mod_to_equations. lia.
Qed.

Lemma ntohs_htons x : 0 <= x < 65536 -> ntohs (htons x) = x.
Proof. apply htons_htons. Qed.

Lemma htons_mod x : htons (x mod 65536) = htons x.
Proof. unfold Model.htons. rewrite Z.mod_mod by lia. reflexivity. Qed.

Lemma u32_of_bytes_of_u32 x : u32_of_bytes (bytes_of_u32 x) = x mod 2 ^ 32.
Proof.
  unfold Model.u32_of_bytes, Model.bytes_of_u32.
  destruct big_endian; cbn [rev app nth]; Z.div_mod_to_equations; lia.
Qed.

Lemma bytes_of_u32_mod x : bytes_of_u32 (x mod 2 ^ 32) = bytes_of_u32 x.
Proof.
  unfold Model.bytes_of_u32.
  assert (E : forall k, 0 <= k <= 24 ->
            ((x mod 2 ^ 32) / 2 ^ k) mod 256 = (x / 2 ^ k) mod 256).
  { intros k Hk.
    replace (2 ^ 32) with (2 ^ k * 2 ^ (32 - k))
      by (rewrite <- Z.pow_add_r by lia; f_equal; lia).
    rewrite Z.rem_mul_r by (apply Z.pow_nonzero || apply Z.pow_pos_nonneg; lia).
    rewrite Z.mul_comm, Z.div_add by (apply Z.pow_nonzero; lia).
    rewrite Z.div_small by (apply Z.mod_pos_bound, Z.pow_pos_nonneg; lia).
    cbn [Z.add].
    replace (2 ^ (32 - k)) with (256 * 2 ^ (24 - k))
      by (change 256 with (2 ^ 8); rewrite <- Z.pow_add_r by lia; f_equal; lia).
    rewrite Z.rem_mul_r by (try apply Z.pow_pos_nonneg; try apply Z.pow_nonzero; lia).
    rewrite Z.mul_comm, Z.mod_add by lia. apply Z.mod_mod. lia. }
  pose proof (E 24 ltac:(lia)) as E24. pose proof (E 16 ltac:(lia)) as E16.
  pose proof (E 8 ltac:(lia)) as E8. pose proof (E 0 ltac:(lia)) as E0.
  change (2 ^ 0) with 1 in E0. rewrite !Z.div_1_r in E0.
  rewrite E24, E16, E8, E0. reflexivity.
Qed.

End ByteOrder.

(** ** First and last positions against occurrence counts *)

Lemma occurrences_app c a b :
  occurrences c (a ++ b) = (occurrences c a + occurrences c b)%nat.
Proof.
  induction a as [|x a IH]; cbn [app occurrences]; [reflexivity|].
  rewrite IH. lia.
Qed.

Lemma absent_app c a b : absent c (a ++ b) <-> absent c a /\ absent c b.
Proof. unfold absent. rewrite occurrences_app. lia. Qed.

Lemma absent_cons c x s : absent c (x :: s) <-> Ascii.eqb x c = false /\ absent c s.
Proof.
  unfold absent. cbn [occurrences]. destruct (Ascii.eqb x c); split.
  - intros H. discriminate H.
  - intros [H _]. discriminate H.
  - intros H. split; [reflexivity|exact H].
  - intros [_ H]. exact H.
Qed.

Lemma strchr_absent c s : absent c s -> strchr s c = None.
Proof.
  induction s as [|x s IH]; intros H; [reflexivity|].
  apply absent_cons in H. destruct H as [Hx Hs].
  cbn [strchr]. rewrite Hx, (IH Hs). reflexivity.
Qed.

Lemma strrchr_absent c s : absent c s -> strrchr s c = None.
Proof.
  induction s as [|x s IH]; intros H; [reflexivity|].
  apply absent_cons in H. destruct H as [Hx Hs].
  cbn [strrchr]. rewrite Hx, (IH Hs). reflexivity.
Qed.

Lemma strchr_app c pre post :
  absent c pre -> strchr (pre ++ c :: post) c = Some (List.length pre).
Proof.
  induction pre as [|x pre IH]; intros H; cbn [app strchr List.length].
  - rewrite Ascii.eqb_refl. reflexivity.
  - apply absent_cons in H. destruct H as [Hx Hs].
    rewrite Hx, (IH Hs). reflexivity.
Qed.

Lemma strrchr_app c pre post :
  absent c post -> strrchr (pre ++ c :: post) c = Some (List.length pre).
Proof.
  intros H. induction pre as [|x pre IH]; cbn [app strrchr List.length].
  - rewrite (strrchr_absent _ _ H), Ascii.eqb_refl. reflexivity.
  - rewrite IH. reflexivity.
Qed.

Lemma strrchr_app_absent c a b : absent c b -> strrchr (a ++ b) c = strrchr a c.
Proof.
  intros H. induction a as [|x a IH]; cbn [app strrchr].
  - apply strrchr_absent, H.
  - rewrite IH. reflexivity.
Qed.

Lemma strrchr_lt c s i : strrchr s c = Some i -> (i < List.length s)%nat.
Proof.
  revert i. induction s as [|x s IH]; intros i; cbn [strrchr List.length].
  - discriminate.
  - destruct (strrchr s c) as [j|].
    + intros E. injection E as <-. specialize (IH j eq_refl). lia.
    + destruct (Ascii.eqb x c); intros E; [injection E as <-; lia|discriminate].
Qed.

(** No occurrence: both pointers are null; one: they coincide; more: the
    first lies strictly before the last. *)
Lemma strchr_strrchr c s :
  match occurrences c s with
  | O => strchr s c = None /\ strrchr s c = None
  | S O => exists i, strchr s c = Some i /\ strrchr s c = Some i
  | _ => exists i j, strchr s c = Some i /\ strrchr s c = Some j /\ (i < j)%nat
  end.
Proof.
  induction s as [|x s IH]; cbn [occurrences strchr strrchr]; [split; reflexivity|].
  destruct (Ascii.eqb x c); cbn [Nat.add].
  - destruct (occurrences c s) as [|[|n]].
    + destruct IH as [_ ->]. exists 0%nat. split; reflexivity.
    + destruct IH as (i & _ & ->). exists 0%nat, (S i). repeat split. lia.
    + destruct IH as (i & j & _ & -> & _). exists 0%nat, (S j). repeat split. lia.
  - destruct (occurrences c s) as [|[|n]].
    + destruct IH as [-> ->]. split; reflexivity.
    + destruct IH as (i & -> & ->). exists (S i). split; reflexivity.
    + destruct IH as (i & j & -> & -> & Hij). exists (S i), (S j).
      repeat split. lia.
Qed.

Lemma is_null_strchr c s : Model.is_null (strchr s c) = (occurrences c s =? 0)%nat.
Proof.
  pose proof (strchr_strrchr c s) as H.
  destruct (occurrences c s) as [|[|n]].
  - destruct H as [-> _]. reflexivity.
  - destruct H as (i & -> & _). reflexivity.
  - destruct H as (i & j & -> & _). reflexivity.
Qed.

Lemma is_null_strrchr c s : Model.is_null (strrchr s c) = (occurrences c s =? 0)%nat.
Proof.
  pose proof (strchr_strrchr c s) as H.
  destruct (occurrences c s) as [|[|n]].
  - destruct H as [_ ->]. reflexivity.
  - destruct H as (i & _ & ->). reflexivity.
  - destruct H as (i & j & _ & -> & _). reflexivity.
Qed.

Lemma firstn_length_app {A} (a b : list A) : firstn (List.length a) (a ++ b) = a.
Proof. induction a as [|x a IH]; cbn; [destruct b; reflexivity|]. now rewrite IH. Qed.

Lemma skipn_length_app {A} (a b : list A) : skipn (List.length a) (a ++ b) = b.
Proof. induction a as [|x a IH]; cbn; [reflexivity|exact IH]. Qed.

Lemma strrchr_none c s : strrchr s c = None -> absent c s.
Proof.
  intros H. pose proof (is_null_strrchr c s) as E. rewrite H in E.
  symmetry in E. apply Nat.eqb_eq in E. exact E.
Qed.

Lemma strrchr_app_present c a b i :
  strrchr b c = Some i -> strrchr (a ++ b) c = Some (List.length a + i)%nat.
Proof.
  intros H. induction a as [|x a IH]; cbn [app strrchr List.length Nat.add].
  - exact H.
  - rewrite IH. reflexivity.
Qed.

Lemma skipn_length_plus {A} (a b : list A) n :
  skipn (List.length a + n) (a ++ b) = skipn n b.
Proof. induction a as [|x a IH]; cbn; [reflexivity|exact IH]. Qed.

Lemma port_text_absent rest : absent ":" rest -> port_text rest = None.
Proof. intros H. unfold port_text. rewrite (strrchr_absent _ _ H). reflexivity. Qed.

Lemma port_text_app rest port :
  absent ":" port -> port_text (rest ++ ":"%char :: port) = Some port.
Proof.
  intros H. unfold port_text. rewrite (strrchr_app _ _ _ H).
  change (S (List.length rest)) with (1 + List.length rest)%nat.
  rewrite Nat.add_comm.
  change (rest ++ ":"%char :: port) with (rest ++ [":"%char] ++ port).
  rewrite skipn_length_plus. reflexivity.
Qed.

(** ** The four notations *)

Lemma pieces_bracket pre body rest :
  absent "[" pre -> absent "]" rest ->
  Model.setAddress_pieces (pre ++ "["%char :: body ++ "]"%char :: rest) =
  if Model.sizeof_scratch <=? Z.of_nat (List.length body)
  then Throw too_long6
  else Ok {| Model.pc_family := AF_INET6; Model.pc_addr := body;
             Model.pc_port := port_text rest |}.
Proof.
  intros Ho Hb. unfold Model.setAddress_pieces.
  rewrite (strchr_app _ _ _ Ho).
  replace (strrchr (pre ++ "["%char :: body ++ "]"%char :: rest) "]")
    with (Some (List.length pre + S (List.length body))%nat).
  2:{ change (pre ++ "["%char :: body ++ "]"%char :: rest)
        with (pre ++ ("["%char :: body) ++ "]"%char :: rest).
      rewrite app_assoc, (strrchr_app _ _ _ Hb), length_app. reflexivity. }
  cbn [Model.is_null xorb negb Model.offset].
  rewrite !andb_false_r.
  replace (Model.size_t_of _) with (Z.of_nat (List.length body))
    by (unfold Model.size_t_of;
        destruct (Z.ltb_spec (Z.of_nat (List.length pre + S (List.length body))
                              - Z.of_nat (List.length pre) - 1) 0); lia).
  destruct (Model.sizeof_scratch <=? Z.of_nat (List.length body)); [reflexivity|].
  rewrite Nat2Z.id.
  change (pre ++ "["%char :: body ++ "]"%char :: rest)
    with (pre ++ ["["%char] ++ body ++ "]"%char :: rest) at 1.
  replace (List.length pre + 1)%nat with (List.length (pre ++ ["["%char]))
    by (rewrite length_app; reflexivity).
  rewrite (app_assoc pre), skipn_length_app, firstn_length_app.
  f_equal. f_equal. unfold port_text.
  destruct (strrchr rest ":") as [i|] eqn:E.
  - replace (pre ++ "["%char :: body ++ "]"%char :: rest)
      with ((pre ++ "["%char :: body ++ ["]"%char]) ++ rest)
      by (rewrite <- app_assoc; cbn [app]; rewrite <- app_assoc; reflexivity).
    rewrite (strrchr_app_present _ _ _ _ E).
    cbn [Model.ptr_gtb Model.offset].
    replace (_ <? _)%nat with true
      by (symmetry; apply Nat.ltb_lt; rewrite !length_app; cbn [List.length];
          rewrite length_app; cbn [List.length]; lia).
    rewrite <- Nat.add_assoc, skipn_length_plus, Nat.add_comm. reflexivity.
  - apply strrchr_none in E.
    change (pre ++ "["%char :: body ++ "]"%char :: rest)
      with (pre ++ ("["%char :: body) ++ "]"%char :: rest).
    rewrite app_assoc, strrchr_app_absent
      by (apply absent_cons; split; [reflexivity|exact E]).
    destruct (strrchr (pre ++ "["%char :: body) ":") as [j|] eqn:Ej; [|reflexivity].
    apply strrchr_lt in Ej. rewrite length_app in Ej. cbn [List.length] in Ej.
    cbn [Model.ptr_gtb].
    replace (_ <? _)%nat with false by (symmetry; apply Nat.ltb_ge; lia).
    reflexivity.
Qed.

Lemma pieces_family name pc :
  Model.setAddress_pieces name = Ok pc ->
  Model.pc_family pc = AF_INET \/ Model.pc_family pc = AF_INET6.
Proof.
  unfold Model.setAddress_pieces.
  repeat match goal with
         | |- context [if ?b then _ else _] => destruct b
         end;
    intros E; try discriminate E; injection E as <-; cbn; auto.
Qed.

Lemma pieces_mismatch name :
  (occurrences "[" name =? 0)%nat <> (occurrences "]" name =? 0)%nat ->
  Model.setAddress_pieces name = Throw (runtime_error "IPv6 with mismatched brackets ").
Proof.
  intros H. unfold Model.setAddress_pieces.
  rewrite is_null_strchr, is_null_strrchr.
  destruct (occurrences "[" name =? 0)%nat, (occurrences "]" name =? 0)%nat;
    try reflexivity; contradiction H; reflexivity.
Qed.

Lemma pieces_bare4 name :
  absent ":" name -> absent "[" name -> absent "]" name ->
  Model.setAddress_pieces name =
  Ok {| Model.pc_family := AF_INET; Model.pc_addr := name; Model.pc_port := None |}.
Proof.
  intros Hc Ho Hb. unfold Model.setAddress_pieces.
  rewrite (strchr_absent _ _ Hc), (strchr_absent _ _ Ho), (strrchr_absent _ _ Hb).
  reflexivity.
Qed.

Lemma pieces_one_colon pre post :
  absent ":" pre -> absent ":" post ->
  absent "[" (pre ++ post) -> absent "]" (pre ++ post) ->
  Model.setAddress_pieces (pre ++ ":"%char :: post) =
  if Model.sizeof_scratch <=? Z.of_nat (List.length pre)
  then Throw too_long4
  else Ok {| Model.pc_family := AF_INET; Model.pc_addr := pre;
             Model.pc_port := Some post |}.
Proof.
  intros Hpre Hpost Ho Hb. unfold Model.setAddress_pieces.
  assert (Ho' : absent "[" (pre ++ ":"%char :: post)).
  { apply absent_app in Ho. apply absent_app. split; [tauto|].
    apply absent_cons. split; [reflexivity|tauto]. }
  assert (Hb' : absent "]" (pre ++ ":"%char :: post)).
  { apply absent_app in Hb. apply absent_app. split; [tauto|].
    apply absent_cons. split; [reflexivity|tauto]. }
  rewrite (strchr_app _ _ _ Hpre), (strrchr_app _ _ _ Hpost).
  rewrite (strchr_absent _ _ Ho'), (strrchr_absent _ _ Hb').
  cbn [Model.is_null xorb andb negb Model.ptr_eqb Model.offset].
  rewrite Nat.eqb_refl. cbn [andb].
  destruct (Model.sizeof_scratch <=? Z.of_nat (List.length pre)); [reflexivity|].
  rewrite firstn_length_app.
  replace (List.length pre + 1)%nat with (List.length (pre ++ [":"%char]))
    by (rewrite length_app; reflexivity).
  change (pre ++ ":"%char :: post) with (pre ++ [":"%char] ++ post).
  rewrite app_assoc, skipn_length_app. reflexivity.
Qed.

Lemma pieces_bare6 name :
  (1 < occurrences ":" name)%nat -> absent "[" name -> absent "]" name ->
  Model.setAddress_pieces name =
  Ok {| Model.pc_family := AF_INET6; Model.pc_addr := name; Model.pc_port := None |}.
Proof.
  intros Hc Ho Hb. unfold Model.setAddress_pieces.
  rewrite (strchr_absent _ _ Ho), (strrchr_absent _ _ Hb).
  pose proof (strchr_strrchr ":" name) as H.
  destruct (occurrences ":" name) as [|[|n]]; [lia|lia|].
  destruct H as (i & j & -> & -> & Hij).
  cbn [Model.is_null xorb andb negb Model.ptr_eqb].
  replace (i =? j)%nat with false by (symmetry; apply Nat.eqb_neq; lia).
  reflexivity.
Qed.

Lemma occurrences_head c s : occurrences c (c :: s) = S (occurrences c s).
Proof. cbn [occurrences]. rewrite Ascii.eqb_refl. reflexivity. Qed.

Lemma pieces_notation name af addr port :
  notation_of name af addr port ->
  Model.setAddress_pieces name =
  if extracted_too_long name addr
  then Throw (if af =? AF_INET then too_long4 else too_long6)
  else Ok {| Model.pc_family := af; Model.pc_addr := addr; Model.pc_port := port |}.
Proof.
  unfold extracted_too_long.
  intros [Hc Ho Hb | pre post -> Hc Ho Hb | Hc Ho Hb
         | pre body rest -> Ho Hb Hc | pre body rest port' -> Ho Hb Hc].
  - rewrite Nat.ltb_irrefl. apply pieces_bare4; assumption.
  - rewrite occurrences_app, occurrences_head in Hc.
    apply absent_app in Ho. destruct Ho as [Ho1 Ho2]. apply absent_cons in Ho2.
    apply absent_app in Hb. destruct Hb as [Hb1 Hb2]. apply absent_cons in Hb2.
    rewrite pieces_one_colon;
      try (apply absent_app; tauto); try (unfold absent; lia).
    replace (_ <? _)%nat with true
      by (symmetry; apply Nat.ltb_lt; rewrite length_app; cbn [List.length]; lia).
    reflexivity.
  - rewrite Nat.ltb_irrefl. apply pieces_bare6; assumption.
  - rewrite (pieces_bracket _ _ _ Ho Hb), (port_text_absent _ Hc).
    replace (_ <? _)%nat with true
      by (symmetry; apply Nat.ltb_lt; rewrite length_app; cbn [List.length];
          rewrite length_app; cbn [List.length]; lia).
    reflexivity.
  - apply absent_app in Hb. destruct Hb as [Hb1 Hb2].
    rewrite pieces_bracket, (port_text_app _ _ Hc); trivial.
    2:{ apply absent_app. split; [assumption|].
        apply absent_cons. split; [reflexivity|assumption]. }
    replace (_ <? _)%nat with true
      by (symmetry; apply Nat.ltb_lt; rewrite length_app; cbn [List.length];
          rewrite length_app; cbn [List.length]; lia).
    reflexivity.
Qed.

(** ** Claims about the parser *)

Section Parser.
Variable big_endian : bool.
Variable inet_pton : Z -> cstr -> option (list Z).
Local Abbreviation parseAddress := (Model.parseAddress big_endian inet_pton).
Local Abbreviation setAddress_finish := (Model.setAddress_finish big_endian inet_pton).
Local Abbreviation port := (Model.port big_endian).

Lemma parseAddress_pieces name defport :
  parseAddress name defport =
  (pc <- Model.setAddress_pieces name ;; setAddress_finish pc defport).
Proof. reflexivity. Qed.

Lemma setPort_port temp p :
  sa_family temp = AF_INET \/ sa_family temp = AF_INET6 ->
  0 <= p < 65536 ->
  exists v, Model.setPort big_endian temp p = Ok v /\ port v = p /\
            sa_family v = sa_family temp /\
            s_addr (st_in v) = s_addr (st_in temp) /\
            s6_addr (st_in6 v) = s6_addr (st_in6 temp) /\
            sin6_scope_id (st_in6 v) = sin6_scope_id (st_in6 temp).
Proof.
  intros [E|E] Hp; unfold Model.setPort, Model.port; rewrite E; cbn [Z.eqb AF_INET AF_INET6 Pos.eqb];
    eexists; (split; [reflexivity|]); cbn; rewrite E; cbn;
    repeat split; apply ntohs_htons; exact Hp.
Qed.

(** C1 (as amended): when the port text parses to a value [n] above 65535
    and the address text converts, [parseAddress] succeeds and the port of
    the result is [n] reduced modulo 2^16: the conversion to the
    [unsigned short] parameter of [setPort] wraps, nothing is rejected. *)
Theorem port_above_16_bits_wraps name defport pc txt n bytes :
  Model.setAddress_pieces name = Ok pc ->
  Model.pc_port pc = Some txt ->
  parseTo_uint64 txt = Ok n ->
  65535 < n ->
  inet_pton (Model.pc_family pc) (Model.pc_addr pc) = Some bytes ->
  exists v, parseAddress name defport = Ok v /\ port v = n mod 65536.
Proof.
  intros Hpc Htxt Hn Hbig Hconv.
  rewrite parseAddress_pieces, Hpc. cbn [bind].
  unfold Model.setAddress_finish. rewrite Hconv, Htxt, Hn. cbn [bind].
  pose proof (pieces_family _ _ Hpc) as Hfam.
  edestruct (setPort_port
               (if Model.pc_family pc =? AF_INET
                then set_s_addr (set_family store_zero (Model.pc_family pc))
                       (Model.u32_of_bytes big_endian bytes)
                else set_s6_addr (set_family store_zero (Model.pc_family pc)) bytes)
               (to_ushort n)) as (v & Hv & Hport & _).
  - destruct (Model.pc_family pc =? AF_INET); cbn; exact Hfam.
  - apply Z.mod_pos_bound. lia.
  - exists v. split; [exact Hv|exact Hport].
Qed.

(** C2: the notation of the input, settled by colon count and brackets as
    the specification lists it, is the one [parseAddress] works with: the
    family, the address text handed to the converter and the port text are
    those of the specification; a literal cut out of the input that does not
    fit [scratch] is refused before conversion. *)
Theorem notation_by_colons_and_brackets name af addr ptext defport :
  notation_of name af addr ptext ->
  parseAddress name defport =
  if extracted_too_long name addr
  then Throw (if af =? AF_INET then too_long4 else too_long6)
  else setAddress_finish
         {| Model.pc_family := af; Model.pc_addr := addr; Model.pc_port := ptext |}
         defport.
Proof.
  intros H. rewrite parseAddress_pieces, (pieces_notation _ _ _ _ H).
  destruct (extracted_too_long name addr); reflexivity.
Qed.

(** C3: an input with exactly one of '[' and ']' is refused with the
    mismatched-brackets error (an [InvalidFormat]), whatever its colons and
    whatever the converter would say of its parts. *)
Theorem unpaired_bracket_rejected name defport :
  unpaired_bracket name ->
  parseAddress name defport = Throw mismatched /\
  fails_with InvalidFormat (parseAddress name defport).
Proof.
  intros H.
  assert (E : parseAddress name defport = Throw mismatched).
  { rewrite parseAddress_pieces, pieces_mismatch; [reflexivity|].
    destruct H as [[H1 H2]|[H1 H2]].
    - rewrite H1. apply Nat.eqb_neq in H2. rewrite H2. discriminate.
    - rewrite H2. apply Nat.eqb_neq in H1. rewrite H1. discriminate. }
  rewrite E. split; [reflexivity|exact I].
Qed.

End Parser.

(** ** Decimal text and the integer parser *)

Lemma digit_char_facts d :
  0 <= d < 10 ->
  digit_in 10 (digit_char d) = Some d /\
  isspace (digit_char d) = false /\
  (code (digit_char d) =? 45) = false /\
  (code (digit_char d) =? 43) = false /\
  (code (digit_char d) =? 48) = (d =? 0) /\
  Ascii.eqb (digit_char d) ":" = false /\
  Ascii.eqb (digit_char d) "[" = false /\
  Ascii.eqb (digit_char d) "]" = false.
Proof.
  intros H.
  assert (E : d = 0 \/ d = 1 \/ d = 2 \/ d = 3 \/ d = 4 \/
              d = 5 \/ d = 6 \/ d = 7 \/ d = 8 \/ d = 9) by lia.
  repeat (destruct E as [->|E]; [vm_compute; repeat split|]).
  subst d. vm_compute. repeat split.
Qed.

Lemma dec_digits_S f n acc :
  dec_digits (S f) n acc =
  if n <? 10 then ascii_of_nat (Z.to_nat (48 + n mod 10)) :: acc
  else dec_digits f (n / 10) (ascii_of_nat (Z.to_nat (48 + n mod 10)) :: acc).
Proof. reflexivity. Qed.

Lemma dec_digits_spec fuel : forall n acc,
  0 <= n < 10 ^ Z.of_nat (S fuel) ->
  exists d ds,
    dec_digits (S fuel) n acc = (digit_char d :: ds) ++ acc /\
    0 <= d < 10 /\ (0 < n -> 0 < d) /\ decimal ds /\
    forall rest a k,
      scan_digits 10 ((digit_char d :: ds) ++ rest) a k =
      scan_digits 10 rest (a * 10 ^ Z.of_nat (S (List.length ds)) + n)
        (k + S (List.length ds))%nat.
Proof.
  induction fuel as [|fuel IH]; intros n acc Hn.
  - change (10 ^ Z.of_nat 1) with 10 in Hn.
    exists n, []. rewrite dec_digits_S.
    replace (n <? 10) with true by (symmetry; apply Z.ltb_lt; lia).
    rewrite Z.mod_small by lia.
    split; [reflexivity|split; [lia|split; [lia|split; [constructor|]]]].
    intros rest a k. cbn [app scan_digits List.length].
    destruct (digit_char_facts n ltac:(lia)) as (-> & _).
    f_equal; change (10 ^ Z.of_nat 1) with 10; lia.
  - rewrite dec_digits_S. destruct (Z.ltb_spec n 10) as [Hlt|Hge].
    + exists n, []. rewrite Z.mod_small by lia.
      split; [reflexivity|split; [lia|split; [lia|split; [constructor|]]]].
      intros rest a k. cbn [app scan_digits List.length].
      destruct (digit_char_facts n ltac:(lia)) as (-> & _).
      f_equal; change (10 ^ Z.of_nat 1) with 10; lia.
    + assert (Hq : 0 <= n / 10 < 10 ^ Z.of_nat (S fuel)).
      { rewrite Nat2Z.inj_succ, Z.pow_succ_r in Hn by lia.
        split; [apply Z.div_pos; lia|apply Z.div_lt_upper_bound; lia]. }
      destruct (IH (n / 10) (ascii_of_nat (Z.to_nat (48 + n mod 10)) :: acc) Hq)
        as (d & ds & E & Hd & Hpos & Hds & Hscan).
      exists d, (ds ++ [digit_char (n mod 10)]).
      assert (Hm : 0 <= n mod 10 < 10) by (apply Z.mod_pos_bound; lia).
      split; [|split; [exact Hd|split; [|split]]].
      * rewrite E. cbn [app]. rewrite <- app_assoc. reflexivity.
      * intros _. apply Hpos. apply Z.div_str_pos. lia.
      * apply Forall_app. split; [exact Hds|].
        constructor; [|constructor]. exists (n mod 10). split; [exact Hm|reflexivity].
      * intros rest a k.
        replace ((digit_char d :: ds ++ [digit_char (n mod 10)]) ++ rest)
          with ((digit_char d :: ds) ++ digit_char (n mod 10) :: rest)
          by (cbn [app]; rewrite <- app_assoc; reflexivity).
        rewrite Hscan. cbn [scan_digits].
        destruct (digit_char_facts _ Hm) as (-> & _).
        rewrite length_app. cbn [List.length].
        f_equal; [|lia].
        rewrite Nat.add_1_r, (Nat2Z.inj_succ (S (List.length ds))), Z.pow_succ_r by lia.
        pose proof (Z.div_mod n 10 ltac:(lia)). lia.
Qed.

Lemma decimal_absent c ds :
  (forall d, 0 <= d < 10 -> Ascii.eqb (digit_char d) c = false) ->
  decimal ds -> absent c ds.
Proof.
  intros Hc H. induction H as [|x l (d & Hd & ->) _ IH]; [reflexivity|].
  apply absent_cons. split; [apply Hc, Hd|exact IH].
Qed.

Lemma dec_shape q :
  0 <= q < 2 ^ 64 ->
  exists d ds, dec q = digit_char d :: ds /\ 0 <= d < 10 /\ (0 < q -> 0 < d) /\
               decimal ds /\
               scan_digits 10 (dec q) 0 0 = (q, S (List.length ds)).
Proof.
  intros Hq. unfold dec.
  destruct (dec_digits_spec 19 q []) as (d & ds & E & Hd & Hpos & Hds & Hscan).
  { change (10 ^ Z.of_nat 20) with 100000000000000000000.
    change (2 ^ 64) with 18446744073709551616 in Hq. lia. }
  exists d, ds. rewrite E, app_nil_r. repeat split; try assumption; try lia.
  specialize (Hscan [] 0 0%nat). rewrite app_nil_r in Hscan. rewrite Hscan.
  reflexivity.
Qed.

Lemma dec_absent q c :
  0 <= q < 2 ^ 64 -> c = ":"%char \/ c = "["%char \/ c = "]"%char -> absent c (dec q).
Proof.
  intros Hq Hc. destruct (dec_shape q Hq) as (d & ds & -> & Hd & _ & Hds & _).
  apply (decimal_absent c (digit_char d :: ds)).
  - intros d' Hd'. destruct (digit_char_facts d' Hd') as (_ & _ & _ & _ & _ & A & B & C).
    destruct Hc as [->|[->| ->]]; assumption.
  - constructor; [exists d; split; [exact Hd|reflexivity]|exact Hds].
Qed.

Lemma skipn_all_length {A} (l : list A) : skipn (List.length l) l = [].
Proof. induction l; cbn; auto. Qed.

Lemma parseTo_dec q : 0 <= q < 2 ^ 64 -> parseTo_uint64 (dec q) = Ok q.
Proof.
  intros Hq. destruct (Z.eq_dec q 0) as [->|Hnz]; [reflexivity|].
  destruct (dec_shape q Hq) as (d & ds & E & Hd & Hpos & Hds & Hscan).
  destruct (digit_char_facts d Hd) as (_ & Hsp & Hm & Hp & Hz & _).
  replace (d =? 0) with false in Hz by (symmetry; apply Z.eqb_neq; lia).
  assert (Hst : stoull (dec q) = Ok (q, List.length (dec q))).
  { unfold stoull. rewrite E in *. cbn [skip_space]. rewrite Hsp.
    cbn [skipn]. rewrite Hm, Hp. cbn [skipn].
    assert (Hb : match digit_char d :: ds with
                 | z :: x :: h :: _ =>
                     if (code z =? 48) && is_x x &&
                        match digit_in 16 h with Some _ => true | None => false end
                     then (16, 2%nat)
                     else if code z =? 48 then (8, 0%nat) else (10, 0%nat)
                 | [z] | z :: _ => if code z =? 48 then (8, 0%nat) else (10, 0%nat)
                 | [] => (10, 0%nat)
                 end = (10, 0%nat)).
    { destruct ds as [|x [|h r]]; rewrite Hz; reflexivity. }
    rewrite Hb. cbn [skipn]. rewrite Hscan.
    replace (ULLONG_MAX <? q) with false
      by (symmetry; apply Z.ltb_ge; unfold ULLONG_MAX; lia).
    reflexivity. }
  unfold parseTo_uint64. rewrite Hst, skipn_all_length. cbn [skip_space].
  rewrite Nat.ltb_irrefl. reflexivity.
Qed.

(** ** Claims about bracketed input and the round trip *)

Section RoundTrip.
Variable big_endian : bool.
Variable inet_pton : Z -> cstr -> option (list Z).
Variable inet_ntop : Z -> list Z -> Z -> ntop_result.
Local Abbreviation parseAddress := (Model.parseAddress big_endian inet_pton).
Local Abbreviation tostring := (Model.tostring big_endian inet_ntop).
Local Abbreviation port := (Model.port big_endian).

(** C10 (as amended): an input [pre ++ "[" ++ body ++ "]" ++ rest], with the
    first '[' and the last ']' shown, whose [body] the converter accepts as
    an IPv6 literal of at most [INET6_ADDRSTRLEN] characters, is parsed with
    [body] alone as the address: [pre] is ignored, and so is [rest] up to
    its last colon.  Without a colon in [rest] the parse succeeds, with the
    IPv6 value of [body], scope id 0 and the default port.  With one, the
    text after the last colon is the port text, and the parse succeeds
    exactly when the integer parser accepts it: then the port is its value
    modulo 2^16, otherwise the parser's error is the outcome. *)
Theorem bracket_contents_only pre body rest bytes defport :
  absent "[" pre -> absent "]" rest ->
  Z.of_nat (List.length body) <= INET6_ADDRSTRLEN ->
  inet_pton AF_INET6 body = Some bytes ->
  0 <= defport < 65536 ->
  (port_text rest = None ->
   exists v,
     parseAddress (pre ++ "["%char :: body ++ "]"%char :: rest) defport = Ok v /\
     sa_family v = AF_INET6 /\ s6_addr (st_in6 v) = bytes /\
     sin6_scope_id (st_in6 v) = 0 /\ port v = defport) /\
  (forall txt n,
     port_text rest = Some txt -> parseTo_uint64 txt = Ok n ->
     exists v,
       parseAddress (pre ++ "["%char :: body ++ "]"%char :: rest) defport = Ok v /\
       sa_family v = AF_INET6 /\ s6_addr (st_in6 v) = bytes /\
       sin6_scope_id (st_in6 v) = 0 /\ port v = n mod 65536) /\
  (forall txt e,
     port_text rest = Some txt -> parseTo_uint64 txt = Throw e ->
     parseAddress (pre ++ "["%char :: body ++ "]"%char :: rest) defport = Throw e).
Proof.
  intros Ho Hb Hlen Hconv Hdef.
  rewrite parseAddress_pieces, (pieces_bracket _ _ _ Ho Hb).
  replace (Model.sizeof_scratch <=? _) with false
    by (symmetry; apply Z.leb_gt; unfold Model.sizeof_scratch; lia).
  cbn [bind]. unfold Model.setAddress_finish.
  cbn [Model.pc_family Model.pc_addr Model.pc_port]. rewrite Hconv.
  change (AF_INET6 =? AF_INET) with false. cbv iota.
  set (temp := set_s6_addr (set_family store_zero AF_INET6) bytes).
  split; [|split].
  - intros Et. rewrite Et.
    destruct (setPort_port big_endian temp defport) as (v & -> & Hp & Hf & _ & Ha & Hs).
    { right. reflexivity. }
    { exact Hdef. }
    exists v. repeat split; assumption.
  - intros txt n Et En. rewrite Et, En. cbn [bind].
    destruct (setPort_port big_endian temp (to_ushort n)) as (v & -> & Hp & Hf & _ & Ha & Hs).
    { right. reflexivity. }
    { apply Z.mod_pos_bound. lia. }
    exists v. repeat split; assumption.
  - intros txt e Et En. rewrite Et, En. reflexivity.
Qed.

Lemma firstn_fits {A} (l : list A) n : Z.of_nat (List.length l) < n + 1 -> firstn (Z.to_nat n) l = l.
Proof. intros H. apply firstn_all2. lia. Qed.

Lemma print_ipv4 v t :
  sa_family v = AF_INET ->
  inet_ntop AF_INET (Model.bytes_of_u32 big_endian (s_addr (st_in v))) (INET_ADDRSTRLEN + 1)
    = ntop_text t ->
  Z.of_nat (List.length t) < INET_ADDRSTRLEN + 1 ->
  tostring v = t ++ Model.port_suffix (port v).
Proof.
  intros Hf Ht Hlen. unfold Model.tostring, Model.print, Model.port.
  rewrite Hf. change (AF_INET =? AF_INET) with true. cbv iota.
  rewrite Ht, (firstn_fits _ _ Hlen). reflexivity.
Qed.

Lemma print_ipv6 v t :
  sa_family v = AF_INET6 ->
  inet_ntop AF_INET6 (s6_addr (st_in6 v)) (INET6_ADDRSTRLEN + 1) = ntop_text t ->
  Z.of_nat (List.length t) < INET6_ADDRSTRLEN + 1 ->
  tostring v =
  "["%char :: t ++ "]"%char :: Model.scope_suffix (sin6_scope_id (st_in6 v))
                            ++ Model.port_suffix (port v).
Proof.
  intros Hf Ht Hlen. unfold Model.tostring, Model.print, Model.port.
  rewrite Hf. change (AF_INET6 =? AF_INET) with false.
  change (AF_INET6 =? AF_INET6) with true. cbv iota.
  rewrite Ht, (firstn_fits _ _ Hlen). cbn [lit list_ascii_of_string app].
  rewrite <- app_assoc. reflexivity.
Qed.

Lemma port_suffix_nonzero q : q <> 0 -> Model.port_suffix q = ":"%char :: dec q.
Proof.
  intros H. unfold Model.port_suffix.
  replace (q =? 0) with false by (symmetry; apply Z.eqb_neq; exact H).
  reflexivity.
Qed.

Lemma port_range v : 0 <= port v < 65536.
Proof.
  unfold Model.port, Model.ntohs.
  destruct (sa_family v =? AF_INET); [apply htons_range|].
  destruct (sa_family v =? AF_INET6); [apply htons_range|lia].
Qed.

Lemma parse_ipv4_text t q p bytes :
  absent ":" t -> absent "[" t -> absent "]" t ->
  Z.of_nat (List.length t) < Model.sizeof_scratch ->
  0 <= q < 65536 -> (q = 0 -> p = 0) ->
  inet_pton AF_INET t = Some bytes ->
  parseAddress (t ++ Model.port_suffix q) p =
  Ok (set_sin_port
        (set_s_addr (set_family store_zero AF_INET) (Model.u32_of_bytes big_endian bytes))
        (Model.htons big_endian q)).
Proof.
  intros Hc Ho Hb Hlen Hq Hp Hconv. rewrite parseAddress_pieces.
  destruct (Z.eq_dec q 0) as [->|Hnz].
  - rewrite (Hp eq_refl). cbn [Model.port_suffix Z.eqb]. rewrite app_nil_r.
    rewrite (pieces_bare4 _ Hc Ho Hb). cbn [bind].
    unfold Model.setAddress_finish. cbn [Model.pc_family Model.pc_addr Model.pc_port].
    rewrite Hconv. reflexivity.
  - rewrite (port_suffix_nonzero _ Hnz).
    assert (Hq64 : 0 <= q < 2 ^ 64) by (change (2 ^ 64) with 18446744073709551616; lia).
    rewrite pieces_one_colon; trivial;
      try (apply dec_absent; [exact Hq64|tauto]);
      try (apply absent_app; split; [assumption|apply dec_absent; [exact Hq64|tauto]]).
    replace (Model.sizeof_scratch <=? _) with false by (symmetry; apply Z.leb_gt; lia).
    cbn [bind]. unfold Model.setAddress_finish.
    cbn [Model.pc_family Model.pc_addr Model.pc_port].
    rewrite Hconv, (parseTo_dec _ Hq64). cbn [bind].
    unfold to_ushort. rewrite Z.mod_small by lia. reflexivity.
Qed.

Lemma parse_ipv6_text t q p bytes :
  Z.of_nat (List.length t) < Model.sizeof_scratch ->
  0 <= q < 65536 -> (q = 0 -> p = 0) ->
  inet_pton AF_INET6 t = Some bytes ->
  parseAddress ("["%char :: t ++ "]"%char :: Model.port_suffix q) p =
  Ok (set_sin6_port (set_s6_addr (set_family store_zero AF_INET6) bytes)
        (Model.htons big_endian q)).
Proof.
  intros Hlen Hq Hp Hconv. rewrite parseAddress_pieces.
  assert (Hq64 : 0 <= q < 2 ^ 64) by (change (2 ^ 64) with 18446744073709551616; lia).
  change ("["%char :: t ++ "]"%char :: Model.port_suffix q)
    with ([] ++ "["%char :: t ++ "]"%char :: Model.port_suffix q).
  rewrite pieces_bracket; [|reflexivity|].
  2:{ unfold Model.port_suffix. destruct (q =? 0); [reflexivity|].
      apply absent_cons. split; [reflexivity|]. apply dec_absent; [exact Hq64|tauto]. }
  replace (Model.sizeof_scratch <=? _) with false by (symmetry; apply Z.leb_gt; lia).
  cbn [bind]. unfold Model.setAddress_finish.
  cbn [Model.pc_family Model.pc_addr Model.pc_port]. rewrite Hconv.
  destruct (Z.eq_dec q 0) as [->|Hnz].
  - rewrite (Hp eq_refl). reflexivity.
  - rewrite (port_suffix_nonzero _ Hnz).
    change (":"%char :: dec q) with ([] ++ ":"%char :: dec q).
    rewrite port_text_app by (apply dec_absent; [exact Hq64|tauto]).
    rewrite (parseTo_dec _ Hq64). cbn [bind].
    unfold to_ushort. rewrite Z.mod_small by lia. reflexivity.
Qed.

(** The round trip through text, wherever the converters are inverse to each
    other. *)
Lemma reformat_inverse_converters v p t :
  sa_family v = AF_INET \/ sa_family v = AF_INET6 ->
  scope_id v = 0 ->
  (port v = 0 -> p = 0) ->
  inet_ntop (sa_family v) (address_bytes big_endian v) (sizeof_buf (sa_family v))
    = ntop_text t ->
  Z.of_nat (List.length t) < sizeof_buf (sa_family v) ->
  inet_pton (sa_family v) t = Some (address_bytes big_endian v) ->
  (sa_family v = AF_INET -> absent ":" t /\ absent "[" t /\ absent "]" t) ->
  reformat big_endian inet_pton inet_ntop v p = Ok (tostring v).
Proof.
  intros Hfam Hscope Hp Hntop Hlen Hpton Hshape. unfold reformat.
  pose proof (port_range v) as Hq.
  destruct Hfam as [Hf|Hf]; rewrite Hf in *; unfold address_bytes, scope_id in *;
    rewrite Hf in *.
  - change (AF_INET =? AF_INET) with true in *. cbv iota in *.
    change (sizeof_buf AF_INET) with (INET_ADDRSTRLEN + 1) in *.
    destruct (Hshape eq_refl) as (Hc & Ho & Hb).
    rewrite (print_ipv4 v t Hf Hntop Hlen).
    rewrite (parse_ipv4_text t (port v) p (Model.bytes_of_u32 big_endian (s_addr (st_in v))) Hc Ho Hb); trivial.
    2:{ unfold Model.sizeof_scratch, INET_ADDRSTRLEN, INET6_ADDRSTRLEN in *. lia. }
    cbn [bind]. f_equal.
    rewrite (print_ipv4 _ t); trivial.
    + f_equal. f_equal. unfold Model.port. cbn [sa_family set_sin_port set_s_addr set_family st_in sin_port].
      change (AF_INET =? AF_INET) with true. cbv iota.
      apply ntohs_htons. exact Hq.
    + cbn [sa_family set_sin_port set_s_addr set_family st_in s_addr].
      rewrite u32_of_bytes_of_u32, bytes_of_u32_mod. exact Hntop.
  - change (AF_INET6 =? AF_INET) with false in *.
    change (AF_INET6 =? AF_INET6) with true in *. cbv iota in *.
    change (sizeof_buf AF_INET6) with (INET6_ADDRSTRLEN + 1) in *.
    rewrite (print_ipv6 v t Hf Hntop Hlen), Hscope.
    cbn [Model.scope_suffix Z.eqb app].
    rewrite (parse_ipv6_text t (port v) p (s6_addr (st_in6 v))); trivial.
    cbn [bind]. f_equal.
    rewrite (print_ipv6 _ t); trivial.
    cbn [sa_family set_sin6_port set_s6_addr set_family st_in6 sin6_scope_id store_zero
         Model.scope_suffix Z.eqb app].
    f_equal. f_equal. f_equal. f_equal. unfold Model.port.
    cbn [sa_family set_sin6_port set_s6_addr set_family st_in6 sin6_port].
    change (AF_INET6 =? AF_INET) with false. change (AF_INET6 =? AF_INET6) with true.
    cbv iota. apply ntohs_htons. exact Hq.
Qed.

(** C4 (as amended): for an IPv4 or IPv6 value [v] with scope id 0, and a
    default port [p] that is 0 whenever the port of [v] is 0, parsing the
    text of [v] and formatting the result gives the text of [v] again,
    provided the converters are inverse to each other at the address of [v]
    (the text rendered for it fits the buffer and converts back to the same
    bytes) and the IPv4 text holds no colon and no bracket. *)
Theorem round_trip_through_text v p t :
  sa_family v = AF_INET \/ sa_family v = AF_INET6 ->
  scope_id v = 0 ->
  (port v = 0 -> p = 0) ->
  inet_ntop (sa_family v) (address_bytes big_endian v) (sizeof_buf (sa_family v))
    = ntop_text t ->
  Z.of_nat (List.length t) < sizeof_buf (sa_family v) ->
  inet_pton (sa_family v) t = Some (address_bytes big_endian v) ->
  (sa_family v = AF_INET -> absent ":" t /\ absent "[" t /\ absent "]" t) ->
  reformat big_endian inet_pton inet_ntop v p = Ok (tostring v).
Proof. exact (reformat_inverse_converters v p t). Qed.

End RoundTrip.

(** ** Claims about the family operations and the formatter *)

Section FamilyOps.
Variable big_endian : bool.
Variable inet_ntop : Z -> list Z -> Z -> ntop_result.
Local Abbreviation tostring := (Model.tostring big_endian inet_ntop).
Local Abbreviation port := (Model.port big_endian).
Local Abbreviation map4to6 := (Model.map4to6 big_endian).
Local Abbreviation isLO := (Model.isLO big_endian).
Local Abbreviation isAny := (Model.isAny big_endian).
Local Abbreviation any := (Model.any big_endian).
Local Abbreviation loopback := (Model.loopback big_endian).
Local Abbreviation bytes_of_u32 := (Model.bytes_of_u32 big_endian).

Lemma bytes_of_u32_length x : List.length (bytes_of_u32 x) = 4%nat.
Proof. unfold Model.bytes_of_u32. destruct big_endian; reflexivity. Qed.

Lemma map4to6_ipv4 v :
  sa_family v = AF_INET ->
  map4to6 v =
  Ok {| sa_family := AF_INET6;
        st_in := st_in store_zero;
        st_in6 := {| sin6_port := sin_port (st_in v);
                     sin6_flowinfo := 0;
                     s6_addr := [0; 0; 0; 0; 0; 0; 0; 0; 0; 0; 0xff; 0xff]
                                  ++ bytes_of_u32 (s_addr (st_in v));
                     sin6_scope_id := 0 |} |}.
Proof.
  intros Hf. unfold Model.map4to6, Model.family. rewrite Hf.
  change (AF_INET =? AF_INET) with true. cbv iota.
  unfold set_sin6_port, set_s6_addr, set_family, memcpy_at.
  cbn [sa_family st_in st_in6 sin6_port sin6_flowinfo s6_addr sin6_scope_id store_zero].
  rewrite bytes_of_u32_length. cbn. rewrite app_nil_r. reflexivity.
Qed.

(** C5: [map4to6] of an IPv4 value is the IPv6 value whose sixteen address
    bytes are ten zero bytes, [0xff], [0xff] and the four bytes of the IPv4
    address, with the same port and scope id 0; an IPv6 value is returned
    unchanged; an unspecified value raises [std::logic_error], the
    specification's [InvalidFamily]. *)
Theorem map4to6_by_family v :
  (sa_family v = AF_INET ->
   exists r, map4to6 v = Ok r /\ sa_family r = AF_INET6 /\
             s6_addr (st_in6 r) =
               [0; 0; 0; 0; 0; 0; 0; 0; 0; 0; 0xff; 0xff] ++ bytes_of_u32 (s_addr (st_in v)) /\
             port r = port v /\ sin6_scope_id (st_in6 r) = 0) /\
  (sa_family v = AF_INET6 -> map4to6 v = Ok v) /\
  (sa_family v = AF_UNSPEC -> fails_with InvalidFamily (map4to6 v)).
Proof.
  split; [|split]; intros Hf.
  - eexists. split; [apply map4to6_ipv4, Hf|].
    repeat split. unfold Model.port. rewrite Hf. reflexivity.
  - unfold Model.map4to6, Model.family. rewrite Hf. reflexivity.
  - unfold Model.map4to6, Model.family. rewrite Hf. exact I.
Qed.

(** C6: the IPv4 value 127.0.0.1, whatever its port, is a loopback address,
    and its image under [map4to6] (::ffff:127.0.0.1) is not: [isLO] compares
    an IPv6 address with ::1 only. *)
Theorem mapped_loopback_is_not_loopback v :
  sa_family v = AF_INET ->
  s_addr (st_in v) = Model.htonl big_endian INADDR_LOOPBACK ->
  isLO v = true /\ exists r, map4to6 v = Ok r /\ isLO r = false.
Proof.
  intros Hf Ha. split.
  - unfold Model.isLO. rewrite Hf, Ha. apply Z.eqb_refl.
  - eexists. split; [apply map4to6_ipv4, Hf|].
    rewrite Ha. unfold Model.isLO, Model.htonl, Model.bytes_of_u32, Model.bswap32.
    destruct big_endian; reflexivity.
Qed.

Lemma print_ipv4_null v residue :
  sa_family v = AF_INET ->
  inet_ntop AF_INET (bytes_of_u32 (s_addr (st_in v))) (INET_ADDRSTRLEN + 1)
    = ntop_null residue ->
  tostring v = lit "<???>" ++ residue ++ Model.port_suffix (port v).
Proof.
  intros Hf Ht. unfold Model.tostring, Model.print, Model.port.
  rewrite Hf. change (AF_INET =? AF_INET) with true. cbv iota.
  rewrite Ht, <- app_assoc. reflexivity.
Qed.

Lemma print_ipv6_null v residue :
  sa_family v = AF_INET6 ->
  inet_ntop AF_INET6 (s6_addr (st_in6 v)) (INET6_ADDRSTRLEN + 1) = ntop_null residue ->
  tostring v = lit "<???>" ++ Model.scope_suffix (sin6_scope_id (st_in6 v))
                          ++ Model.port_suffix (port v).
Proof.
  intros Hf Ht. unfold Model.tostring, Model.print, Model.port.
  rewrite Hf. change (AF_INET6 =? AF_INET) with false.
  change (AF_INET6 =? AF_INET6) with true. cbv iota.
  rewrite Ht. reflexivity.
Qed.

(** C7: the text [tostring] produces, by family.  IPv4: the text of the
    converter, then ':' and the port when the port is not 0.  IPv6: the text
    of the converter between '[' and ']', then '%' and the scope id when it
    is not 0, then ':' and the port when it is not 0.  Unspecified: "<>".
    Any other tag: "<???>".  [tostring] is a total function. *)
Theorem format_by_family v :
  (sa_family v = AF_INET ->
   forall t,
     inet_ntop AF_INET (bytes_of_u32 (s_addr (st_in v))) (INET_ADDRSTRLEN + 1) = ntop_text t ->
     Z.of_nat (List.length t) < INET_ADDRSTRLEN + 1 ->
     tostring v = t ++ (if port v =? 0 then [] else lit ":" ++ dec (port v))) /\
  (sa_family v = AF_INET6 ->
   forall t,
     inet_ntop AF_INET6 (s6_addr (st_in6 v)) (INET6_ADDRSTRLEN + 1) = ntop_text t ->
     Z.of_nat (List.length t) < INET6_ADDRSTRLEN + 1 ->
     tostring v =
     lit "[" ++ t ++ lit "]"
       ++ (if sin6_scope_id (st_in6 v) =? 0 then []
           else lit "%" ++ dec (sin6_scope_id (st_in6 v)))
       ++ (if port v =? 0 then [] else lit ":" ++ dec (port v))) /\
  (sa_family v = AF_UNSPEC -> tostring v = lit "<>") /\
  (sa_family v <> AF_INET -> sa_family v <> AF_INET6 -> sa_family v <> AF_UNSPEC ->
   tostring v = lit "<???>").
Proof.
  split; [|split; [|split]].
  - intros Hf t Ht Hlen. apply (print_ipv4 big_endian inet_ntop v t Hf Ht Hlen).
  - intros Hf t Ht Hlen. rewrite (print_ipv6 big_endian inet_ntop v t Hf Ht Hlen).
    reflexivity.
  - intros Hf. unfold Model.tostring, Model.print. rewrite Hf. reflexivity.
  - intros H4 H6 H0. unfold Model.tostring, Model.print.
    apply Z.eqb_neq in H4, H6, H0. rewrite H4, H6, H0. reflexivity.
Qed.

(** C9: for a 16-bit port [p], [any] and [loopback] of [AF_INET] or
    [AF_INET6] return a value that [isAny] (resp. [isLO]) accepts and whose
    port is [p]; for every other family both raise [std::invalid_argument],
    the specification's [UnsupportedFamily]. *)
Theorem any_and_loopback af p :
  0 <= p < 65536 ->
  (af = AF_INET \/ af = AF_INET6 ->
   exists a l, any af p = Ok a /\ isAny a = true /\ port a = p /\
               loopback af p = Ok l /\ isLO l = true /\ port l = p) /\
  (af <> AF_INET -> af <> AF_INET6 ->
   fails_with UnsupportedFamily (any af p) /\
   fails_with UnsupportedFamily (loopback af p)).
Proof.
  intros Hp. split.
  - intros [-> | ->]; do 2 eexists;
      (split; [reflexivity|]); (split; [destruct big_endian; reflexivity|]);
      (split; [apply ntohs_htons, Hp|]);
      (split; [reflexivity|]); (split; [destruct big_endian; reflexivity|]);
      apply ntohs_htons, Hp.
  - intros H4 H6. unfold Model.any, Model.loopback, Model.SockAddr_af.
    apply Z.eqb_neq in H4, H6. rewrite H4, H6. cbn [negb andb].
    destruct (af =? AF_UNSPEC); cbn; split; exact I.
Qed.

End FamilyOps.

(** ** The reference dotted-quad converters are inverse to each other *)

Lemma pton4_octet_nat n rest done :
  (n < 256)%nat -> (List.length done <= 3)%nat ->
  Ref.pton4_loop (dec (Z.of_nat n) ++ rest) done 0 false =
  Ref.pton4_loop rest done (Z.of_nat n) true.
Proof.
  intros Hn Hd.
  destruct done as [|x1 [|x2 [|x3 [|x4 done]]]]; cbn [List.length] in Hd; try lia;
    (do 256 (destruct n as [|n]; [reflexivity|])); lia.
Qed.

Lemma dec_octet_length_nat n : (n < 256)%nat -> (List.length (dec (Z.of_nat n)) <= 3)%nat.
Proof.
  intros Hn. do 256 (destruct n as [|n]; [cbn; lia|]). lia.
Qed.

Lemma pton4_octet a rest done :
  0 <= a < 256 -> (List.length done <= 3)%nat ->
  Ref.pton4_loop (dec a ++ rest) done 0 false = Ref.pton4_loop rest done a true.
Proof.
  intros Ha Hd. rewrite <- (Z2Nat.id a) by lia. apply pton4_octet_nat; [lia|exact Hd].
Qed.

Lemma dec_octet_length a : 0 <= a < 256 -> (List.length (dec a) <= 3)%nat.
Proof.
  intros Ha. rewrite <- (Z2Nat.id a) by lia. apply dec_octet_length_nat. lia.
Qed.

Lemma pton4_dot rest done cur :
  (List.length done < 3)%nat ->
  Ref.pton4_loop ("."%char :: rest) done cur true = Ref.pton4_loop rest (cur :: done) 0 false.
Proof.
  intros Hd. cbn [Ref.pton4_loop]. change (Ref.is_digit ".") with false.
  change (code "." =? 46) with true. cbn [andb].
  replace (List.length done =? 3)%nat with false by (symmetry; apply Nat.eqb_neq; lia).
  reflexivity.
Qed.

Lemma ref_ipv4_inverse a b c d :
  0 <= a < 256 -> 0 <= b < 256 -> 0 <= c < 256 -> 0 <= d < 256 ->
  let t := Ref.inet_ntop4_text [a; b; c; d] in
  Ref.inet_pton4 t = Some [a; b; c; d] /\
  absent ":" t /\ absent "[" t /\ absent "]" t /\ (List.length t <= 15)%nat.
Proof.
  intros Ha Hb Hc Hd. unfold Ref.inet_ntop4_text. cbn [nth lit list_ascii_of_string app].
  assert (R : forall x, 0 <= x < 256 -> 0 <= x < 2 ^ 64)
    by (intros x Hx; change (2 ^ 64) with 18446744073709551616; lia).
  split; [|split; [|split; [|split]]].
  - unfold Ref.inet_pton4.
    rewrite pton4_octet, pton4_dot by (cbn [List.length]; lia).
    rewrite pton4_octet, pton4_dot by (cbn [List.length]; lia).
    rewrite pton4_octet, pton4_dot by (cbn [List.length]; lia).
    rewrite <- (app_nil_r (dec d)), pton4_octet by (cbn [List.length]; lia).
    reflexivity.
  - repeat (apply absent_app; split; [apply dec_absent; auto|];
            apply absent_cons; split; [reflexivity|]).
    apply dec_absent; auto.
  - repeat (apply absent_app; split; [apply dec_absent; auto|];
            apply absent_cons; split; [reflexivity|]).
    apply dec_absent; auto.
  - repeat (apply absent_app; split; [apply dec_absent; auto|];
            apply absent_cons; split; [reflexivity|]).
    apply dec_absent; auto.
  - pose proof (dec_octet_length a Ha). pose proof (dec_octet_length b Hb).
    pose proof (dec_octet_length c Hc). pose proof (dec_octet_length d Hd).
    repeat (rewrite length_app; cbn [List.length]). lia.
Qed.

Lemma bytes_of_u32_octets be x :
  exists a b c d, Model.bytes_of_u32 be x = [a; b; c; d] /\
                  0 <= a < 256 /\ 0 <= b < 256 /\ 0 <= c < 256 /\ 0 <= d < 256.
Proof.
  unfold Model.bytes_of_u32.
  destruct be; cbn [rev app]; do 4 eexists; (split; [reflexivity|]);
    repeat split; apply Z.mod_pos_bound; lia.
Qed.

(** X28: on the reference converters the round trip holds for every IPv4
    value whose port is printed, or is absent with default port 0. *)
Theorem ref_round_trip_ipv4 be v p :
  sa_family v = AF_INET -> (Model.port be v = 0 -> p = 0) ->
  reformat be Ref.inet_pton Ref.inet_ntop v p = Ok (Model.tostring be Ref.inet_ntop v).
Proof.
  intros Hf Hp.
  destruct (bytes_of_u32_octets be (s_addr (st_in v)))
    as (a & b & c & d & E & Ha & Hb & Hc & Hd).
  destruct (ref_ipv4_inverse a b c d Ha Hb Hc Hd) as (Hpton & Hc1 & Hc2 & Hc3 & Hlen).
  assert (Hnt : Ref.inet_ntop AF_INET [a; b; c; d] (INET_ADDRSTRLEN + 1)
                = ntop_text (Ref.inet_ntop4_text [a; b; c; d])).
  { unfold Ref.inet_ntop. change (AF_INET =? AF_INET) with true. cbv iota.
    replace (_ <? _) with true
      by (symmetry; apply Z.ltb_lt; unfold INET_ADDRSTRLEN; lia).
    reflexivity. }
  apply (reformat_inverse_converters be Ref.inet_pton Ref.inet_ntop v p
           (Ref.inet_ntop4_text [a; b; c; d])).
  - left. exact Hf.
  - unfold scope_id. rewrite Hf. reflexivity.
  - exact Hp.
  - unfold address_bytes. rewrite Hf. change (AF_INET =? AF_INET) with true. cbv iota.
    rewrite E. exact Hnt.
  - rewrite Hf. change (sizeof_buf AF_INET) with 17. lia.
  - unfold address_bytes. rewrite Hf. change (AF_INET =? AF_INET) with true. cbv iota.
    rewrite E. exact Hpton.
  - intros _. repeat split; assumption.
Qed.

(** ** Concrete runs *)

Example parseTo_hex : parseTo_uint64 (lit " 0x1F ") = Ok 31.
Proof. reflexivity. Qed.

Example parseTo_octal : parseTo_uint64 (lit "017") = Ok 15.
Proof. reflexivity. Qed.

Example parseTo_trailing :
  parseTo_uint64 (lit "80x") = Throw (NoConvert "Extraneous characters after integer: ").
Proof. reflexivity. Qed.

Example parseTo_too_big :
  parseTo_uint64 (lit "18446744073709551616") = Throw (NoConvert "Out of range : ").
Proof. reflexivity. Qed.

Example parse_ipv4_default_port :
  option_map (Model.port false)
    (match Ref.parseAddress (lit "127.0.0.1") 5075 with Ok v => Some v | Throw _ => None end)
  = Some 5075.
Proof. reflexivity. Qed.

Example parse_ipv4_explicit_port :
  match Ref.parseAddress (lit "127.0.0.1:5076") 5075 with
  | Ok v => Ref.tostring v = lit "127.0.0.1:5076"
  | Throw _ => False
  end.
Proof. reflexivity. Qed.

Example parse_bracketed_loopback :
  match Ref.parseAddress (lit "[::1]:5075") 0 with
  | Ok v => Model.isLO false v = true /\ Ref.tostring v = lit "[::1]:5075"
  | Throw _ => False
  end.
Proof. split; reflexivity. Qed.

Example parse_bare_ipv6 :
  match Ref.parseAddress (lit "::1") 5075 with
  | Ok v => Model.isLO false v = true /\ Model.port false v = 5075
  | Throw _ => False
  end.
Proof. split; reflexivity. Qed.

Example parse_reversed_brackets :
  Ref.parseAddress (lit "]::1[") 0 = Throw too_long6.
Proof. reflexivity. Qed.

Example format_scoped : Ref.tostring sample_scoped6 = lit "[::1]%5:80".
Proof. reflexivity. Qed.

Example format_failed_ipv6 :
  Model.tostring false (failing_ntop (lit "x")) sample_scoped6 = lit "<???>%5:80".
Proof. reflexivity. Qed.

(** ** Witnesses and counterexamples *)

(** C1 (as stated) fails: the port text of "1.2.3.4:99999" parses to 99999,
    above 65535, and the input is accepted, with port 99999 - 65536. *)
Lemma port_99999_is_accepted :
  parseTo_uint64 (lit "99999") = Ok 99999 /\
  ~ fails_with InvalidFormat (Ref.parseAddress (lit "1.2.3.4:99999") 0) /\
  exists v, Ref.parseAddress (lit "1.2.3.4:99999") 0 = Ok v /\ Model.port false v = 34463.
Proof.
  split; [reflexivity|]. split.
  - intros H. vm_compute in H. exact H.
  - eexists. split; reflexivity.
Qed.

Lemma port_above_16_bits_wraps_witness :
  exists v, Ref.parseAddress (lit "1.2.3.4:99999") 0 = Ok v /\
            Model.port false v = 99999 mod 65536.
Proof.
  apply (port_above_16_bits_wraps false Ref.inet_pton (lit "1.2.3.4:99999") 0
           {| Model.pc_family := AF_INET; Model.pc_addr := lit "1.2.3.4";
              Model.pc_port := Some (lit "99999") |}
           (lit "99999") 99999 [1; 2; 3; 4]); reflexivity.
Defined.

Lemma notation_by_colons_and_brackets_witness :
  notation_of (lit "[::1]:5075") AF_INET6 (lit "::1") (Some (lit "5075")) /\
  Ref.parseAddress (lit "[::1]:5075") 0 =
  Model.setAddress_finish false Ref.inet_pton
    {| Model.pc_family := AF_INET6; Model.pc_addr := lit "::1";
       Model.pc_port := Some (lit "5075") |} 0.
Proof.
  assert (N : notation_of (lit "[::1]:5075") AF_INET6 (lit "::1") (Some (lit "5075"))).
  { apply (bracket_port _ [] (lit "::1") [] (lit "5075")); reflexivity. }
  split; [exact N|].
  exact (notation_by_colons_and_brackets false Ref.inet_pton _ _ _ _ 0 N).
Defined.

Lemma unpaired_bracket_rejected_witness :
  fails_with InvalidFormat (Ref.parseAddress (lit "[::1") 0) /\
  fails_with InvalidFormat (Ref.parseAddress (lit "::1]") 0).
Proof.
  split.
  - apply (unpaired_bracket_rejected false Ref.inet_pton (lit "[::1") 0).
    right. split; [discriminate|reflexivity].
  - apply (unpaired_bracket_rejected false Ref.inet_pton (lit "::1]") 0).
    left. split; [reflexivity|discriminate].
Defined.

(** C4 (as stated) fails: a value without port is read back with the default
    port, the scope id has no notation the parser reads, and the text of an
    unspecified value is not an address. *)
Lemma round_trip_fails :
  reformat false Ref.inet_pton Ref.inet_ntop sample_any4 80
    <> Ok (Ref.tostring sample_any4) /\
  reformat false Ref.inet_pton Ref.inet_ntop sample_scoped6 0
    <> Ok (Ref.tostring sample_scoped6) /\
  reformat false Ref.inet_pton Ref.inet_ntop store_zero 0
    <> Ok (Ref.tostring store_zero).
Proof.
  repeat split; intros H; vm_compute in H; discriminate H.
Qed.

Example round_trip_default_port :
  reformat false Ref.inet_pton Ref.inet_ntop sample_any4 80 = Ok (lit "0.0.0.0:80").
Proof. reflexivity. Qed.

Example round_trip_scope :
  reformat false Ref.inet_pton Ref.inet_ntop sample_scoped6 0 = Ok (lit "[::1]:80").
Proof. reflexivity. Qed.

Example round_trip_unspecified :
  reformat false Ref.inet_pton Ref.inet_ntop store_zero 0
  = Throw (runtime_error "Not a valid IP address ").
Proof. reflexivity. Qed.

Lemma round_trip_through_text_witness :
  reformat false Ref.inet_pton Ref.inet_ntop sample_lo4 9 = Ok (Ref.tostring sample_lo4).
Proof.
  apply (round_trip_through_text false Ref.inet_pton Ref.inet_ntop sample_lo4 9
           (lit "127.0.0.1")).
  - left. reflexivity.
  - reflexivity.
  - intros H. vm_compute in H. discriminate H.
  - reflexivity.
  - reflexivity.
  - reflexivity.
  - intros _. repeat split; reflexivity.
Defined.

Lemma map4to6_by_family_witness :
  exists r, Model.map4to6 false sample_lo4 = Ok r /\ sa_family r = AF_INET6 /\
            s6_addr (st_in6 r) = [0; 0; 0; 0; 0; 0; 0; 0; 0; 0; 255; 255; 127; 0; 0; 1] /\
            Model.port false r = 5075 /\ sin6_scope_id (st_in6 r) = 0.
Proof.
  exact (proj1 (map4to6_by_family false sample_lo4) eq_refl).
Defined.

Lemma mapped_loopback_is_not_loopback_witness :
  Model.isLO false sample_lo4 = true /\
  exists r, Model.map4to6 false sample_lo4 = Ok r /\ Model.isLO false r = false.
Proof.
  apply (mapped_loopback_is_not_loopback false sample_lo4); reflexivity.
Defined.

Lemma format_by_family_witness : Ref.tostring sample_lo4 = lit "127.0.0.1:5075".
Proof.
  apply (proj1 (format_by_family false Ref.inet_ntop sample_lo4) eq_refl (lit "127.0.0.1"));
    reflexivity.
Defined.

(** C8: with a converter that fails, the IPv4 branch prints the placeholder
    and then whatever [buf] holds ([strm<<buf] runs on both paths, lines
    522-527); the IPv6 branch prints the placeholder alone. *)
Theorem failed_ipv4_conversion_prints_buffer :
  Model.tostring false (failing_ntop (lit "x")) sample_lo4 = lit "<???>x:5075".
Proof. reflexivity. Qed.

Lemma any_and_loopback_witness :
  (exists a l, Model.any false AF_INET 0 = Ok a /\ Model.isAny false a = true /\
               Model.port false a = 0 /\
               Model.loopback false AF_INET 0 = Ok l /\ Model.isLO false l = true /\
               Model.port false l = 0) /\
  fails_with UnsupportedFamily (Model.any false 99 0).
Proof.
  assert (Hp : 0 <= 0 < 65536) by lia.
  split.
  - apply (proj1 (any_and_loopback false AF_INET 0 Hp)). left. reflexivity.
  - apply (proj2 (any_and_loopback false 99 0 Hp)); discriminate.
Defined.

(** C10 (as stated) fails: the bracket contents of "[::1]:x" are a valid
    IPv6 literal, yet the input is refused for its port text. *)
Lemma bracketed_literal_with_bad_port :
  Ref.inet_pton AF_INET6 (lit "::1") = Some IN6ADDR_LOOPBACK_INIT /\
  ~ succeeds (Ref.parseAddress (lit "[::1]:x") 0).
Proof.
  split; [reflexivity|]. intros H. vm_compute in H. exact H.
Qed.

Lemma bracket_contents_only_witness :
  (exists v, Ref.parseAddress (lit "[::1]garbage") 5075 = Ok v /\
             Model.isLO false v = true /\ Model.port false v = 5075) /\
  Ref.parseAddress (lit "[::1]:x") 5075 = Throw (NoConvert "Invalid input : ").
Proof.
  split.
  - destruct (proj1 (bracket_contents_only false Ref.inet_pton [] (lit "::1")
                       (lit "garbage") IN6ADDR_LOOPBACK_INIT 5075
                       eq_refl eq_refl ltac:(vm_compute; discriminate) eq_refl
                       ltac:(lia)) eq_refl)
      as (v & Hv & Hf & Ha & _ & Hp).
    exists v. split; [exact Hv|]. split; [|exact Hp].
    unfold Model.isLO. rewrite Hf, Ha. reflexivity.
  - apply (proj2 (proj2 (bracket_contents_only false Ref.inet_pton [] (lit "::1")
                           (lit ":x") IN6ADDR_LOOPBACK_INIT 5075
                           eq_refl eq_refl ltac:(vm_compute; discriminate) eq_refl
                           ltac:(lia))) (lit "x")); reflexivity.
Defined.

(** * Further properties *)

(** ** More on the family operations *)

Lemma bytes_eqb_eq a b : bytes_eqb a b = true -> a = b.
Proof.
  unfold bytes_eqb. revert b. induction a as [|x a IH]; intros [|y b] H;
    try reflexivity; try discriminate H.
  cbn in H. apply andb_prop in H. destruct H as [Hl H].
  apply andb_prop in H. destruct H as [Hxy H].
  apply Z.eqb_eq in Hxy. subst y. f_equal. apply IH.
  cbn in Hl. rewrite Hl, H. reflexivity.
Qed.

Lemma land_top_nibble x :
  0 <= x < 2 ^ 32 -> (Z.land x 0xf0000000 =? 0xe0000000) = (x / 2 ^ 28 =? 14).
Proof.
  intros Hx.
  assert (E : Z.land x 0xf0000000 = (x / 2 ^ 28) * 2 ^ 28).
  { apply Z.bits_inj'. intros n Hn. rewrite Z.land_spec.
    destruct (Z.ltb_spec n 28) as [Hlt|Hge].
    - rewrite Z.mul_pow2_bits_low by lia.
      replace (Z.testbit 0xf0000000 n) with false; [apply andb_false_r|].
      symmetry. change 0xf0000000 with (15 * 2 ^ 28).
      apply Z.mul_pow2_bits_low. lia.
    - rewrite Z.mul_pow2_bits by lia. rewrite Z.div_pow2_bits by lia.
      replace (n - 28 + 28) with n by lia.
      destruct (Z.ltb_spec n 32) as [Hlt|Hge'].
      + replace (Z.testbit 0xf0000000 n) with true; [apply andb_true_r|].
        symmetry. change 0xf0000000 with (15 * 2 ^ 28).
        rewrite Z.mul_pow2_bits by lia.
        assert (C : n - 28 = 0 \/ n - 28 = 1 \/ n - 28 = 2 \/ n - 28 = 3) by lia.
        destruct C as [-> |[-> |[-> | ->]]]; reflexivity.
      + replace (Z.testbit x n) with false; [reflexivity|].
        symmetry. apply Z.bits_above_log2; [lia|].
        destruct (Z.eq_dec x 0) as [->|Hnz]; [cbn; lia|].
        apply Z.log2_lt_pow2; [lia|].
        apply Z.lt_le_trans with (2 ^ 32); [lia|apply Z.pow_le_mono_r; lia]. }
  rewrite E.
  destruct (Z.eqb_spec (x / 2 ^ 28) 14) as [->|Hne]; [reflexivity|].
  apply Z.eqb_neq. change 0xe0000000 with (14 * 2 ^ 28). nia.
Qed.

Section MoreFamilyOps.
Variable big_endian : bool.
Local Abbreviation port := (Model.port big_endian).
Local Abbreviation setPort := (Model.setPort big_endian).
Local Abbreviation map4to6 := (Model.map4to6 big_endian).
Local Abbreviation isLO := (Model.isLO big_endian).
Local Abbreviation isAny := (Model.isAny big_endian).
Local Abbreviation isMCast := (Model.isMCast big_endian).
Local Abbreviation any := (Model.any big_endian).
Local Abbreviation loopback := (Model.loopback big_endian).
Local Abbreviation bytes_of_u32 := (Model.bytes_of_u32 big_endian).
Local Abbreviation htonl := (Model.htonl big_endian).

Lemma family_cases v :
  {sa_family v = AF_INET} + {sa_family v = AF_INET6} +
  {sa_family v <> AF_INET /\ sa_family v <> AF_INET6}.
Proof.
  destruct (Z.eq_dec (sa_family v) AF_INET); [left; left; assumption|].
  destruct (Z.eq_dec (sa_family v) AF_INET6); [left; right; assumption|].
  right. split; assumption.
Qed.

(** X1: [setPort] changes the port and nothing else. *)
Theorem setPort_changes_only_the_port v p :
  sa_family v = AF_INET \/ sa_family v = AF_INET6 ->
  0 <= p < 65536 ->
  exists v', setPort v p = Ok v' /\ port v' = p /\
             sa_family v' = sa_family v /\
             address_bytes big_endian v' = address_bytes big_endian v /\
             scope_id v' = scope_id v /\
             isAny v' = isAny v /\ isLO v' = isLO v /\ isMCast v' = isMCast v.
Proof.
  intros Hf Hp.
  destruct (setPort_port big_endian v p Hf Hp) as (v' & E & Hport & Hfam & Ha & Ha6 & Hs).
  exists v'. repeat split; trivial.
  - unfold address_bytes. rewrite Hfam, Ha, Ha6. reflexivity.
  - unfold scope_id. rewrite Hfam, Hs. reflexivity.
  - unfold Model.isAny. rewrite Hfam, Ha, Ha6. reflexivity.
  - unfold Model.isLO. rewrite Hfam, Ha, Ha6. reflexivity.
  - unfold Model.isMCast. rewrite Hfam, Ha, Ha6. reflexivity.
Qed.

(** X2: a later [setPort] overrides an earlier one. *)
Theorem setPort_overrides v p q :
  (v' <- setPort v p ;; setPort v' q) = setPort v q.
Proof.
  unfold Model.setPort.
  destruct (sa_family v =? AF_INET) eqn:E4; cbn [bind].
  - cbn [sa_family set_sin_port]. rewrite E4. reflexivity.
  - destruct (sa_family v =? AF_INET6) eqn:E6; cbn [bind]; [|reflexivity].
    cbn [sa_family set_sin6_port]. rewrite E4, E6. reflexivity.
Qed.

(** X3: a value whose family is neither IPv4 nor IPv6 has port 0, belongs to
    no class, and accepts neither [setPort] nor [map4to6]. *)
Theorem no_family_no_answer v p :
  sa_family v <> AF_INET -> sa_family v <> AF_INET6 ->
  port v = 0 /\ isAny v = false /\ isLO v = false /\ isMCast v = false /\
  (exists w, setPort v p = Throw (logic_error w)) /\
  (exists w, map4to6 v = Throw (logic_error w)).
Proof.
  intros H4 H6. apply Z.eqb_neq in H4, H6.
  unfold Model.port, Model.isAny, Model.isLO, Model.isMCast, Model.setPort,
    Model.map4to6, Model.family.
  rewrite H4, H6. repeat split; eexists; reflexivity.
Qed.

(** X4: the three classes exclude each other. *)
Theorem classes_exclude_each_other v :
  (isAny v = true -> isLO v = false /\ isMCast v = false) /\
  (isLO v = true -> isAny v = false /\ isMCast v = false) /\
  (isMCast v = true -> isAny v = false /\ isLO v = false).
Proof.
  assert (A4 : forall s, (s =? htonl INADDR_ANY) = true ->
             (s =? htonl INADDR_LOOPBACK) = false /\
             IN_MULTICAST (Model.ntohl big_endian s) = false).
  { intros s H. apply Z.eqb_eq in H. subst s. destruct big_endian; split; reflexivity. }
  assert (L4 : forall s, (s =? htonl INADDR_LOOPBACK) = true ->
             (s =? htonl INADDR_ANY) = false /\
             IN_MULTICAST (Model.ntohl big_endian s) = false).
  { intros s H. apply Z.eqb_eq in H. subst s. destruct big_endian; split; reflexivity. }
  assert (A6 : forall a, IN6_IS_ADDR_UNSPECIFIED a = true ->
             IN6_IS_ADDR_LOOPBACK a = false /\ IN6_IS_ADDR_MULTICAST a = false).
  { intros a H. apply bytes_eqb_eq in H. subst a. split; reflexivity. }
  assert (L6 : forall a, IN6_IS_ADDR_LOOPBACK a = true ->
             IN6_IS_ADDR_UNSPECIFIED a = false /\ IN6_IS_ADDR_MULTICAST a = false).
  { intros a H. apply bytes_eqb_eq in H. subst a. split; reflexivity. }
  unfold Model.isAny, Model.isLO, Model.isMCast.
  destruct (sa_family v =? AF_INET); [|destruct (sa_family v =? AF_INET6)].
  - split; [|split]; intros H.
    + apply A4, H.
    + apply L4, H.
    + split.
      * destruct (s_addr (st_in v) =? htonl INADDR_ANY) eqn:E; [|reflexivity].
        apply A4 in E. destruct E as [_ E]. congruence.
      * destruct (s_addr (st_in v) =? htonl INADDR_LOOPBACK) eqn:E; [|reflexivity].
        apply L4 in E. destruct E as [_ E]. congruence.
  - split; [|split]; intros H.
    + apply A6, H.
    + apply L6, H.
    + split.
      * destruct (IN6_IS_ADDR_UNSPECIFIED (s6_addr (st_in6 v))) eqn:E; [|reflexivity].
        apply A6 in E. destruct E as [_ E]. congruence.
      * destruct (IN6_IS_ADDR_LOOPBACK (s6_addr (st_in6 v))) eqn:E; [|reflexivity].
        apply L6 in E. destruct E as [_ E]. congruence.
  - repeat split; intros H; discriminate H.
Qed.

(** X5: IPv4 multicast is decided by the first address octet. *)
Theorem ipv4_multicast_first_octet v :
  sa_family v = AF_INET ->
  (isMCast v = true <-> 224 <= nth 0 (bytes_of_u32 (s_addr (st_in v))) 0 <= 239).
Proof.
  intros Hf. unfold Model.isMCast. rewrite Hf.
  change (AF_INET =? AF_INET) with true. cbv iota.
  unfold IN_MULTICAST.
  set (s := s_addr (st_in v)).
  assert (R : 0 <= Model.ntohl big_endian s < 2 ^ 32).
  { unfold Model.ntohl, Model.htonl, Model.bswap32.
    destruct big_endian; Z.div_mod_to_equations; lia. }
  rewrite (land_top_nibble _ R).
  unfold Model.ntohl, Model.htonl, Model.bswap32, Model.bytes_of_u32.
  destruct big_endian; cbn [rev app nth]; rewrite Z.eqb_eq;
    Z.div_mod_to_equations; lia.
Qed.

Lemma map4to6_ipv4' v :
  sa_family v = AF_INET ->
  exists r, map4to6 v = Ok r /\ sa_family r = AF_INET6 /\
            s6_addr (st_in6 r) =
              [0; 0; 0; 0; 0; 0; 0; 0; 0; 0; 0xff; 0xff] ++ bytes_of_u32 (s_addr (st_in v)) /\
            sin6_port (st_in6 r) = sin_port (st_in v).
Proof.
  intros Hf. eexists. split; [apply map4to6_ipv4, Hf|]. repeat split.
Qed.

(** X6: an IPv4-mapped address belongs to no class, and mapping twice is
    mapping once. *)
Theorem mapped_value_has_no_class v r :
  map4to6 v = Ok r ->
  map4to6 r = Ok r /\ port r = port v /\
  (sa_family v = AF_INET ->
   isAny r = false /\ isLO r = false /\ isMCast r = false).
Proof.
  intros H. destruct (family_cases v) as [[Hf|Hf]|[H4 H6]].
  - destruct (map4to6_ipv4' v Hf) as (r' & E & Hfr & Ha & Hp).
    rewrite E in H. injection H as <-.
    split; [|split].
    + unfold Model.map4to6, Model.family. rewrite Hfr. reflexivity.
    + unfold Model.port. rewrite Hf, Hfr, Hp. reflexivity.
    + intros _. unfold Model.isAny, Model.isLO, Model.isMCast.
      rewrite Hfr, Ha.
      destruct (bytes_of_u32_octets big_endian (s_addr (st_in v)))
        as (a & b & c & d & -> & _).
      repeat split.
  - unfold Model.map4to6, Model.family in *. rewrite Hf in *.
    change (AF_INET6 =? AF_INET) with false in *.
    change (AF_INET6 =? AF_INET6) with true in *. cbv iota in *.
    injection H as <-. rewrite Hf.
    split; [reflexivity|]. split; [reflexivity|].
    intros E. discriminate E.
  - apply Z.eqb_neq in H4, H6. unfold Model.map4to6, Model.family in H.
    rewrite H4, H6 in H. discriminate H.
Qed.

(** X7: [any] and [loopback] keep the low 16 bits of the port. *)
Theorem factory_port_is_truncated af p :
  any af p = any af (p mod 65536) /\ loopback af p = loopback af (p mod 65536) /\
  (af = AF_INET \/ af = AF_INET6 ->
   exists a l, any af p = Ok a /\ loopback af p = Ok l /\
               port a = p mod 65536 /\ port l = p mod 65536).
Proof.
  unfold Model.any, Model.loopback. rewrite (htons_mod big_endian p).
  split; [reflexivity|]. split; [reflexivity|].
  assert (Hm : 0 <= p mod 65536 < 65536) by (apply Z.mod_pos_bound; lia).
  intros [-> | ->]; do 2 eexists; (split; [reflexivity|]); (split; [reflexivity|]);
    split;
    change (Model.ntohs big_endian (Model.htons big_endian p) = p mod 65536);
    rewrite <- (htons_mod big_endian p); apply ntohs_htons, Hm.
Qed.

End MoreFamilyOps.

(** ** More on the parser *)

Lemma stoull_throws s e :
  stoull s = Throw e -> (exists m, e = invalid_argument m) \/ (exists m, e = out_of_range m).
Proof.
  unfold stoull.
  repeat match goal with
         | |- context [let '(_, _) := ?x in _] => destruct x
         | |- context [match ?x with O => _ | S _ => _ end] => destruct x
         | |- context [if ?b then _ else _] => destruct b
         end;
    intros E; try discriminate E; injection E as <-; eauto.
Qed.

Lemma parseTo_uint64_throws s e :
  parseTo_uint64 s = Throw e -> exists m, e = NoConvert m.
Proof.
  unfold parseTo_uint64. destruct (stoull s) as [[ret idx]|e'] eqn:E.
  - destruct (_ <? _)%nat; intros H; [injection H as <-; eauto|discriminate H].
  - destruct (stoull_throws _ _ E) as [[m ->]|[m ->]]; intros H; injection H as <-; eauto.
Qed.

Lemma pieces_throws name e :
  Model.setAddress_pieces name = Throw e -> exists m, e = runtime_error m.
Proof.
  unfold Model.setAddress_pieces.
  repeat match goal with
         | |- context [if ?b then _ else _] => destruct b
         end;
    intros E; try discriminate E; injection E as <-; eauto.
Qed.

Section MoreParser.
Variable big_endian : bool.
Variable inet_pton : Z -> cstr -> option (list Z).
Local Abbreviation parseAddress := (Model.parseAddress big_endian inet_pton).
Local Abbreviation port := (Model.port big_endian).

(** What a successful parse went through. *)
Lemma parse_ok_inv name defport v :
  parseAddress name defport = Ok v ->
  exists pc bytes p,
    Model.setAddress_pieces name = Ok pc /\
    inet_pton (Model.pc_family pc) (Model.pc_addr pc) = Some bytes /\
    match Model.pc_port pc with
    | Some txt => exists n, parseTo_uint64 txt = Ok n /\ p = to_ushort n
    | None => p = defport
    end /\
    Model.setPort big_endian
      (if Model.pc_family pc =? AF_INET
       then set_s_addr (set_family store_zero (Model.pc_family pc))
              (Model.u32_of_bytes big_endian bytes)
       else set_s6_addr (set_family store_zero (Model.pc_family pc)) bytes) p = Ok v.
Proof.
  rewrite parseAddress_pieces.
  destruct (Model.setAddress_pieces name) as [pc|e] eqn:Epc; [|discriminate].
  cbn [bind]. unfold Model.setAddress_finish.
  destruct (inet_pton _ _) as [bytes|] eqn:Ec; [|discriminate].
  destruct (Model.pc_port pc) as [txt|] eqn:Et.
  - destruct (parseTo_uint64 txt) as [n|e] eqn:En; [|discriminate]. cbn [bind].
    intros H. exists pc, bytes, (to_ushort n). rewrite Et. eauto 6.
  - intros H. exists pc, bytes, defport. rewrite Et. eauto.
Qed.

Lemma parsed_family name defport v :
  parseAddress name defport = Ok v -> sa_family v = AF_INET \/ sa_family v = AF_INET6.
Proof.
  intros H. destruct (parse_ok_inv _ _ _ H) as (pc & bytes & p & Hpc & _ & _ & Hset).
  pose proof (pieces_family _ _ Hpc) as Hf.
  unfold Model.setPort in Hset.
  destruct Hf as [Hf|Hf]; rewrite Hf in Hset; cbn in Hset;
    injection Hset as <-; cbn; auto.
Qed.

(** X8: what [parseAddress] returns is an IPv4 or IPv6 value with a 16-bit
    port; its scope id (read for IPv6 only, 0 otherwise) is 0, and an IPv6
    result has flow label 0. *)
Theorem parsed_value_shape name defport v :
  parseAddress name defport = Ok v ->
  (sa_family v = AF_INET \/ sa_family v = AF_INET6) /\
  scope_id v = 0 /\
  (sa_family v = AF_INET6 -> sin6_flowinfo (st_in6 v) = 0) /\
  0 <= port v < 65536.
Proof.
  intros H. destruct (parse_ok_inv _ _ _ H) as (pc & bytes & p & Hpc & _ & _ & Hset).
  pose proof (pieces_family _ _ Hpc) as Hf.
  unfold scope_id.
  split; [|split; [|split; [|apply port_range]]];
    unfold Model.setPort in Hset;
    destruct Hf as [Hf|Hf]; rewrite Hf in Hset; cbn in Hset;
    injection Hset as <-; cbn; auto.
Qed.

(** X9: every failure of [parseAddress] is an [InvalidFormat]. *)
Theorem parse_failure_is_invalid_format name defport e :
  parseAddress name defport = Throw e -> InvalidFormat e.
Proof.
  rewrite parseAddress_pieces.
  destruct (Model.setAddress_pieces name) as [pc|e'] eqn:Epc.
  - cbn [bind]. unfold Model.setAddress_finish.
    pose proof (pieces_family _ _ Epc) as Hf.
    destruct (inet_pton _ _) as [bytes|]; [|intros H; injection H as <-; exact I].
    destruct (Model.pc_port pc) as [txt|].
    + destruct (parseTo_uint64 txt) as [n|e'] eqn:En; cbn [bind].
      * unfold Model.setPort. destruct Hf as [Hf|Hf]; rewrite Hf; cbn; discriminate.
      * destruct (parseTo_uint64_throws _ _ En) as [m ->].
        intros H. injection H as <-. exact I.
    + unfold Model.setPort. destruct Hf as [Hf|Hf]; rewrite Hf; cbn; discriminate.
  - cbn [bind]. destruct (pieces_throws _ _ Epc) as [m ->].
    intros H. injection H as <-. exact I.
Qed.


End MoreParser.

(** ** Escaped text *)

Lemma all_ascii (P : ascii -> Prop) :
  (forall b0 b1 b2 b3 b4 b5 b6 b7, P (Ascii b0 b1 b2 b3 b4 b5 b6 b7)) -> forall c, P c.
Proof. intros H [b0 b1 b2 b3 b4 b5 b6 b7]. apply H. Qed.

Lemma escape_char_head c r : unescape_head (escape_char c ++ r) = Some (c, r).
Proof.
  revert c. apply all_ascii.
  intros [] [] [] [] [] [] [] []; reflexivity.
Qed.

Lemma escape_char_printable c : Forall printable (escape_char c).
Proof.
  revert c. apply all_ascii.
  intros [] [] [] [] [] [] [] []; repeat constructor; vm_compute; intros H; discriminate H.
Qed.

Lemma printableb_spec c : printableb c = true <-> printable c.
Proof. unfold printableb, printable. rewrite andb_true_iff, !Z.leb_le. tauto. Qed.

Lemma plainb_spec c : plainb c = true <-> plain c.
Proof.
  unfold plainb, plain. rewrite !andb_true_iff, !negb_true_iff, !Z.eqb_neq.
  rewrite printableb_spec. tauto.
Qed.

Lemma escape_char_facts c :
  forallb printableb (escape_char c) = true /\
  (1 <=? List.length (escape_char c))%nat = true /\
  (List.length (escape_char c) <=? 4)%nat = true /\
  (List.length (escape_char c) =? 1)%nat = plainb c /\
  (if plainb c then escape_char c = [c] else True).
Proof.
  revert c. apply all_ascii.
  intros [] [] [] [] [] [] [] []; repeat split.
Qed.

Lemma escape_flat_map s : escape s = flat_map escape_char s.
Proof. unfold escape, print_Escaper, Escaper_of. cbn [val count]. now rewrite firstn_all. Qed.

Lemma escape_cons c s : escape (c :: s) = escape_char c ++ escape s.
Proof. rewrite !escape_flat_map. reflexivity. Qed.

(** X11: whatever the input, the escaped text is printable ASCII. *)
Theorem escaped_text_is_printable esc : Forall printable (print_Escaper esc).
Proof.
  unfold print_Escaper. destruct (val esc) as [s|].
  - induction (firstn (count esc) s) as [|c l IH]; [constructor|].
    cbn [flat_map]. apply Forall_app. split; [|exact IH].
    destruct (escape_char_facts c) as (H & _).
    apply Forall_forall. intros x Hx. apply printableb_spec.
    rewrite forallb_forall in H. apply H, Hx.
  - repeat constructor; vm_compute; intros H; discriminate H.
Qed.

(** X12: escaping loses nothing: different texts have different escaped
    texts. *)
Theorem escape_is_injective a b : escape a = escape b -> a = b.
Proof.
  revert b. induction a as [|c a IH]; intros [|d b] H.
  - reflexivity.
  - rewrite escape_cons in H. apply (f_equal unescape_head) in H.
    rewrite escape_char_head in H. discriminate H.
  - rewrite escape_cons in H. apply (f_equal unescape_head) in H.
    rewrite escape_char_head in H. discriminate H.
  - rewrite !escape_cons in H. apply (f_equal unescape_head) in H.
    rewrite !escape_char_head in H. injection H as -> H. f_equal. apply IH, H.
Qed.

Lemma escape_length_bounds s :
  (List.length s <= List.length (escape s) <= 4 * List.length s)%nat.
Proof.
  induction s as [|c s IH]; [cbn; lia|].
  rewrite escape_cons, length_app. cbn [List.length].
  destruct (escape_char_facts c) as (_ & L1 & L4 & _).
  apply Nat.leb_le in L1, L4. lia.
Qed.

(** X13: a text grows at most fourfold, and is left as it is exactly when all
    its characters are plain. *)
Theorem escape_growth_and_fixed_points s :
  (List.length s <= List.length (escape s) <= 4 * List.length s)%nat /\
  (escape s = s <-> Forall plain s).
Proof.
  split; [apply escape_length_bounds|]. split.
  - intros H. apply (f_equal (@List.length ascii)) in H.
    induction s as [|c s IH]; [constructor|].
    rewrite escape_cons, length_app in H. cbn [List.length] in H.
    pose proof (escape_length_bounds s) as Hs.
    destruct (escape_char_facts c) as (_ & L1 & _ & E & _).
    apply Nat.leb_le in L1.
    constructor.
    + apply plainb_spec. rewrite <- E. apply Nat.eqb_eq. lia.
    + apply IH. lia.
  - intros H. induction H as [|c s Hc _ IH]; [reflexivity|].
    rewrite escape_cons, IH.
    destruct (escape_char_facts c) as (_ & _ & _ & _ & E).
    apply plainb_spec in Hc. rewrite Hc in E. rewrite E. reflexivity.
Qed.

(** ** Server identifiers *)

Lemma guid_byte_nat n r :
  (n < 256)%nat ->
  exists h l, setw 2 "0" (hex_text (Z.of_nat n)) = [h; l] /\
              guid_head (h :: l :: r) = Some (Z.of_nat n, r).
Proof.
  intros Hn.
  do 256 (destruct n as [|n]; [do 2 eexists; split; reflexivity|]). lia.
Qed.

Lemma guid_byte b r :
  is_byte b ->
  exists h l, setw 2 "0" (hex_text b) = [h; l] /\ guid_head (h :: l :: r) = Some (b, r).
Proof.
  intros Hb. unfold is_byte in Hb. rewrite <- (Z2Nat.id b) by lia.
  apply guid_byte_nat. lia.
Qed.

Lemma guid_digits_injective g1 g2 :
  Forall is_byte g1 -> Forall is_byte g2 -> guid_digits g1 = guid_digits g2 -> g1 = g2.
Proof.
  intros H1. revert g2. induction H1 as [|b g1 Hb _ IH]; intros g2 H2 E.
  - destruct H2 as [|c g2 Hc _]; [reflexivity|].
    change (guid_digits (c :: g2)) with (setw 2 "0" (hex_text c) ++ guid_digits g2) in E.
    destruct (guid_byte c (guid_digits g2) Hc) as (h & l & Ec & _).
    rewrite Ec in E. discriminate E.
  - destruct H2 as [|c g2 Hc H2].
    + change (guid_digits (b :: g1)) with (setw 2 "0" (hex_text b) ++ guid_digits g1) in E.
      destruct (guid_byte b (guid_digits g1) Hb) as (h & l & Eb & _).
      rewrite Eb in E. discriminate E.
    + change (guid_digits (b :: g1)) with (setw 2 "0" (hex_text b) ++ guid_digits g1) in E.
      change (guid_digits (c :: g2)) with (setw 2 "0" (hex_text c) ++ guid_digits g2) in E.
      destruct (guid_byte b (guid_digits g1) Hb) as (h & l & Eb & Db).
      destruct (guid_byte c (guid_digits g2) Hc) as (h' & l' & Ec & Dc).
      rewrite Eb, Ec in E. cbn [app] in E.
      rewrite E in Db. rewrite Db in Dc. injection Dc as -> Hr.
      f_equal. apply IH; assumption.
Qed.

Lemma guid_digits_length g :
  Forall is_byte g -> List.length (guid_digits g) = (2 * List.length g)%nat.
Proof.
  intros H. induction H as [|b g Hb _ IH]; [reflexivity|].
  change (guid_digits (b :: g)) with (setw 2 "0" (hex_text b) ++ guid_digits g).
  rewrite length_app, IH.
  destruct (guid_byte b [] Hb) as (h & l & -> & _). cbn [List.length]. lia.
Qed.

Lemma print_ServerGUID_digits g : print_ServerGUID g = lit "0x" ++ guid_digits g.
Proof. reflexivity. Qed.

Lemma two_hex_digits_nat n :
  (n < 256)%nat -> setw 2 "0" (hex_text (Z.of_nat n)) = two_hex_digits (Z.of_nat n).
Proof.
  intros Hn. do 256 (destruct n as [|n]; [reflexivity|]). lia.
Qed.

Lemma guid_digits_text g :
  Forall is_byte g -> guid_digits g = flat_map two_hex_digits g.
Proof.
  intros H. induction H as [|b g Hb _ IH]; [reflexivity|].
  change (guid_digits (b :: g)) with (setw 2 "0" (hex_text b) ++ guid_digits g).
  cbn [flat_map]. rewrite IH. f_equal.
  unfold is_byte in Hb. rewrite <- (Z2Nat.id b) by lia.
  apply two_hex_digits_nat. lia.
Qed.

(** X14: a server identifier prints as "0x" followed, for each byte in
    order, by its two lower-case hexadecimal digits, high nibble first; so
    the text has 2 + 2 * length characters, and different identifiers print
    differently. *)
Theorem guid_text_length_and_injective g1 g2 :
  Forall is_byte g1 -> Forall is_byte g2 ->
  print_ServerGUID g1 = lit "0x" ++ flat_map two_hex_digits g1 /\
  List.length (print_ServerGUID g1) = (2 + 2 * List.length g1)%nat /\
  (print_ServerGUID g1 = print_ServerGUID g2 -> g1 = g2).
Proof.
  intros H1 H2. rewrite !print_ServerGUID_digits. split; [|split].
  - rewrite (guid_digits_text _ H1). reflexivity.
  - rewrite length_app, (guid_digits_length _ H1). reflexivity.
  - intros E. apply app_inv_head in E. apply guid_digits_injective; assumption.
Qed.

(** ** The integer parsers *)

Lemma stoull_scan s :
  stoull s =
  let '(neg, v, n, idx) := strto_scan s in
  match n with
  | O => Throw (invalid_argument "stoull")
  | _ =>
      if ULLONG_MAX <? v then Throw (out_of_range "stoull")
      else Ok ((if neg then (- v) mod 2 ^ 64 else v), idx)
  end.
Proof.
  unfold stoull, strto_scan, sign_of, base_of.
  repeat match goal with
         | |- context [let '(_, _) := ?x in _] => destruct x
         end.
  reflexivity.
Qed.

Lemma digit_in_range base c d : digit_in base c = Some d -> 0 <= d < base.
Proof.
  unfold digit_in.
  pose proof (Nat2Z.is_nonneg (nat_of_ascii c)) as Hc. fold (code c) in Hc.
  repeat match goal with
         | |- context [if ?b then _ else _] => destruct b eqn:?
         end;
    intros E; try discriminate E; injection E as <-;
    rewrite ?andb_true_iff, ?Z.leb_le, ?Z.ltb_lt in *; lia.
Qed.

Lemma scan_digits_bounds base s : forall acc k v n,
  0 < base -> 0 <= acc ->
  scan_digits base s acc k = (v, n) ->
  0 <= v /\ (k <= n <= k + List.length s)%nat.
Proof.
  induction s as [|c s IH]; intros acc k v n Hb Ha E; cbn [scan_digits] in E.
  - injection E as <- <-. cbn. lia.
  - destruct (digit_in base c) as [d|] eqn:Ed.
    + apply digit_in_range in Ed.
      apply IH in E; [|lia|nia]. cbn [List.length]. lia.
    + injection E as <- <-. cbn [List.length]. lia.
Qed.

Lemma skip_space_shift s : forall k, skip_space s k = (k + skip_space s 0)%nat.
Proof.
  induction s as [|c s IH]; intros k; cbn [skip_space]; [lia|].
  destruct (isspace c); [|lia]. rewrite (IH (S k)), (IH 1%nat). lia.
Qed.

Lemma skip_space_le s : (skip_space s 0 <= List.length s)%nat.
Proof.
  induction s as [|c s IH]; cbn [skip_space List.length]; [lia|].
  destruct (isspace c); [|lia]. rewrite skip_space_shift. lia.
Qed.

Lemma base_of_cases s2 :
  let '(base, pre) := base_of s2 in
  (base = 8 \/ base = 10 \/ base = 16) /\ (pre <= List.length s2)%nat.
Proof.
  unfold base_of. destruct s2 as [|z [|x [|h r]]]; cbn [List.length];
    repeat match goal with
           | |- context [if ?b then _ else _] => destruct b
           end; split; auto; lia.
Qed.

(** The scan reads no further than the text. *)
Lemma strto_scan_bounds s neg v n idx :
  strto_scan s = (neg, v, n, idx) -> 0 <= v /\ (idx <= List.length s)%nat.
Proof.
  unfold strto_scan.
  pose proof (skip_space_le s) as Hws.
  set (ws := skip_space s 0) in *. set (s1 := skipn ws s).
  assert (L1 : (List.length s1 = List.length s - ws)%nat) by apply length_skipn.
  assert (Hsg : (snd (sign_of s1) <= List.length s1)%nat).
  { unfold sign_of. destruct s1 as [|c r]; [cbn; lia|].
    cbn [List.length]. destruct (code c =? 45); [cbn; lia|].
    destruct (code c =? 43); cbn; lia. }
  destruct (sign_of s1) as [neg' sg]. cbn [snd] in Hsg.
  set (s2 := skipn sg s1).
  assert (L2 : (List.length s2 = List.length s1 - sg)%nat) by apply length_skipn.
  pose proof (base_of_cases s2) as Hb.
  destruct (base_of s2) as [base pre]. destruct Hb as [Hb Hpre].
  destruct (scan_digits base (skipn pre s2) 0 0) as [v' n'] eqn:E.
  apply scan_digits_bounds in E; [|lia|lia].
  rewrite length_skipn in E.
  intros H. injection H as <- <- <- <-. lia.
Qed.

Lemma stoll_throws s e :
  stoll s = Throw e -> (exists m, e = invalid_argument m) \/ (exists m, e = out_of_range m).
Proof.
  unfold stoll. destruct (strto_scan s) as [[[neg v] n] idx].
  destruct n; [intros E; injection E as <-; eauto|].
  destruct (_ || _); intros E; [injection E as <-; eauto|discriminate E].
Qed.

Lemma parseTo_int64_throws s e :
  parseTo_int64 s = Throw e -> exists m, e = NoConvert m.
Proof.
  unfold parseTo_int64. destruct (stoll s) as [[ret idx]|e'] eqn:E.
  - destruct (_ <? _)%nat; intros H; [injection H as <-; eauto|discriminate H].
  - destruct (stoll_throws _ _ E) as [[m ->]|[m ->]]; intros H; injection H as <-; eauto.
Qed.

(** X15: whatever goes wrong in either parser surfaces as [NoConvert]. *)
Theorem parse_failures_are_NoConvert s e :
  parseTo_uint64 s = Throw e \/ parseTo_int64 s = Throw e -> exists m, e = NoConvert m.
Proof.
  intros [H|H]; [exact (parseTo_uint64_throws _ _ H)|exact (parseTo_int64_throws _ _ H)].
Qed.

Lemma parseTo_uint64_inv s r :
  parseTo_uint64 s = Ok r ->
  exists neg v n idx,
    strto_scan s = (neg, v, S n, idx) /\ v <= ULLONG_MAX /\
    r = (if neg then (- v) mod 2 ^ 64 else v) /\
    (List.length s <= skip_space (skipn idx s) idx)%nat.
Proof.
  unfold parseTo_uint64. rewrite stoull_scan.
  destruct (strto_scan s) as [[[neg v] n] idx].
  destruct n as [|n]; [discriminate|].
  destruct (Z.ltb_spec ULLONG_MAX v); [discriminate|].
  destruct (Nat.ltb_spec (skip_space (skipn idx s) idx) (List.length s)); [discriminate|].
  intros E. injection E as <-. exists neg, v, n, idx. auto.
Qed.

Lemma parseTo_int64_inv s r :
  parseTo_int64 s = Ok r ->
  exists neg v n idx,
    strto_scan s = (neg, v, S n, idx) /\
    r = (if neg then - v else v) /\ LLONG_MIN <= r <= LLONG_MAX /\
    (List.length s <= skip_space (skipn idx s) idx)%nat.
Proof.
  unfold parseTo_int64, stoll.
  destruct (strto_scan s) as [[[neg v] n] idx].
  destruct n as [|n]; [discriminate|].
  cbv zeta.
  destruct (Z.ltb_spec (if neg then - v else v) LLONG_MIN); [discriminate|].
  destruct (Z.ltb_spec LLONG_MAX (if neg then - v else v)); [discriminate|].
  cbn [orb].
  destruct (Nat.ltb_spec (skip_space (skipn idx s) idx) (List.length s)); [discriminate|].
  intros E. injection E as <-. exists neg, v, n, idx. repeat split; auto.
Qed.

(** X16: the results fit their types. *)
Theorem parsed_integers_fit s r :
  (parseTo_uint64 s = Ok r -> 0 <= r < 2 ^ 64) /\
  (parseTo_int64 s = Ok r -> - 2 ^ 63 <= r < 2 ^ 63).
Proof.
  split; intros H.
  - destruct (parseTo_uint64_inv _ _ H) as (neg & v & n & idx & E & Hv & -> & _).
    apply strto_scan_bounds in E. destruct neg.
    + apply Z.mod_pos_bound. lia.
    + unfold ULLONG_MAX in Hv. lia.
  - destruct (parseTo_int64_inv _ _ H) as (neg & v & n & idx & _ & _ & Hr & _).
    unfold LLONG_MIN, LLONG_MAX in Hr. lia.
Qed.

(** X17: a text the signed parser accepts is accepted by the unsigned one,
    which yields the same number modulo 2^64. *)
Theorem signed_text_parses_unsigned s r :
  parseTo_int64 s = Ok r -> parseTo_uint64 s = Ok (r mod 2 ^ 64).
Proof.
  intros H.
  destruct (parseTo_int64_inv _ _ H) as (neg & v & n & idx & E & -> & Hr & Hsp).
  pose proof (strto_scan_bounds _ _ _ _ _ E) as [Hv _].
  unfold parseTo_uint64. rewrite stoull_scan, E.
  unfold LLONG_MIN, LLONG_MAX in Hr.
  replace (ULLONG_MAX <? v) with false
    by (symmetry; apply Z.ltb_ge; unfold ULLONG_MAX; destruct neg; lia).
  replace (_ <? _)%nat with false by (symmetry; apply Nat.ltb_ge; exact Hsp).
  destruct neg; [reflexivity|].
  rewrite Z.mod_small by lia. reflexivity.
Qed.

Lemma digit_in_36 base c : base <= 36 -> digit_in 36 c = None -> digit_in base c = None.
Proof.
  unfold digit_in. intros Hb.
  match goal with |- context [if ?d <? 36 then _ else _] => set (dv := d) end.
  destruct (Z.ltb_spec dv 36); [discriminate|]. intros _.
  destruct (Z.ltb_spec dv base); [lia|reflexivity].
Qed.

Lemma stops_not_x c : digit_in 36 c = None -> is_x c = false.
Proof.
  unfold is_x. destruct (Z.eqb_spec (code c) 120) as [E|_].
  - unfold digit_in. rewrite E. discriminate.
  - destruct (Z.eqb_spec (code c) 88) as [E|_]; [|reflexivity].
    unfold digit_in. rewrite E. discriminate.
Qed.

Lemma isspace_stops c : isspace c = true -> digit_in 36 c = None.
Proof.
  unfold isspace, digit_in. intros H.
  apply orb_true_iff in H. rewrite andb_true_iff, Z.eqb_eq, !Z.leb_le in H.
  repeat match goal with
         | |- context [if ?b then _ else _] => destruct b eqn:?
         end; try reflexivity;
    rewrite ?andb_true_iff, ?andb_false_iff, ?Z.leb_le, ?Z.leb_gt, ?Z.ltb_lt, ?Z.ltb_ge in *;
    lia.
Qed.

Lemma scan_digits_app base s t : forall a k,
  base <= 36 -> stops t -> scan_digits base (s ++ t) a k = scan_digits base s a k.
Proof.
  intros a k Hb Ht. revert a k. induction s as [|c s IH]; intros a k; cbn [app scan_digits].
  - destruct t as [|c t]; [reflexivity|]. cbn [scan_digits].
    rewrite (digit_in_36 base c Hb Ht). reflexivity.
  - destruct (digit_in base c); [apply IH|reflexivity].
Qed.

Lemma skip_space_app_nonempty s t :
  skipn (skip_space s 0) s <> [] -> skip_space (s ++ t) 0 = skip_space s 0.
Proof.
  induction s as [|c s IH]; cbn [app skip_space]; intros H.
  - contradiction H. reflexivity.
  - destruct (isspace c); [|reflexivity].
    rewrite (skip_space_shift s 1) in *. rewrite (skip_space_shift (s ++ t) 1).
    cbn [Nat.add skipn] in H. rewrite (IH H). reflexivity.
Qed.

Lemma skipn_app_le {A} n (a b : list A) :
  (n <= List.length a)%nat -> skipn n (a ++ b) = skipn n a ++ b.
Proof.
  intros H. rewrite skipn_app. replace (n - List.length a)%nat with 0%nat by lia.
  reflexivity.
Qed.

Lemma sign_of_app s1 t : s1 <> [] -> sign_of (s1 ++ t) = sign_of s1.
Proof. destruct s1; [intros H; contradiction H|]; reflexivity. Qed.

Lemma sign_of_le s1 : (snd (sign_of s1) <= List.length s1)%nat.
Proof.
  unfold sign_of. destruct s1 as [|c r]; [cbn; lia|].
  cbn [List.length]. destruct (code c =? 45); [cbn; lia|].
  destruct (code c =? 43); cbn; lia.
Qed.

Lemma base_of_app s2 t : s2 <> [] -> stops t -> base_of (s2 ++ t) = base_of s2.
Proof.
  intros Hne Ht. unfold base_of.
  destruct s2 as [|z [|x [|h r]]]; [contradiction Hne; reflexivity| | |reflexivity].
  - destruct t as [|c [|c' t]]; cbn [app]; try reflexivity.
    rewrite (stops_not_x c Ht), andb_false_r. reflexivity.
  - destruct t as [|c t]; cbn [app]; [reflexivity|].
    rewrite (digit_in_36 16 c ltac:(lia) Ht), andb_false_r. reflexivity.
Qed.

(** What cannot continue a numeral does not change the scan. *)
Lemma strto_scan_app s t neg v n idx :
  strto_scan s = (neg, v, S n, idx) -> stops t ->
  strto_scan (s ++ t) = (neg, v, S n, idx).
Proof.
  intros H Ht. unfold strto_scan in *.
  set (ws := skip_space s 0) in *. set (s1 := skipn ws s) in *.
  assert (N1 : s1 <> []).
  { intros E. rewrite E in H. cbn in H. discriminate H. }
  rewrite (skip_space_app_nonempty s t N1). fold ws.
  rewrite (skipn_app_le ws s t (skip_space_le s)). fold s1.
  rewrite (sign_of_app s1 t N1).
  pose proof (sign_of_le s1) as Hsg.
  destruct (sign_of s1) as [neg' sg]. cbn [snd] in Hsg.
  rewrite (skipn_app_le sg s1 t Hsg).
  set (s2 := skipn sg s1) in *.
  assert (N2 : s2 <> []).
  { intros E. rewrite E in H. cbn in H. discriminate H. }
  rewrite (base_of_app s2 t N2 Ht).
  pose proof (base_of_cases s2) as Hb.
  destruct (base_of s2) as [base pre]. destruct Hb as [Hb Hpre].
  rewrite (skipn_app_le pre s2 t Hpre).
  rewrite scan_digits_app by (trivial; lia).
  exact H.
Qed.

Lemma skip_space_spaces l : forall k,
  (k + List.length l <= skip_space l k)%nat -> spaces l.
Proof.
  induction l as [|c l IH]; intros k H; [constructor|].
  cbn [skip_space List.length] in H. destruct (isspace c) eqn:E; [|lia].
  constructor; [exact E|]. apply (IH (S k)). lia.
Qed.

Lemma skip_space_app_spaces l t : forall k,
  spaces l -> skip_space (l ++ t) k = skip_space t (k + List.length l).
Proof.
  induction l as [|c l IH]; intros k H; cbn [app skip_space List.length].
  - f_equal. lia.
  - inversion H as [|? ? Hc Hl]; subst. rewrite Hc, (IH (S k) Hl). f_equal. lia.
Qed.

Lemma rest_after_number s idx t :
  (idx <= List.length s)%nat ->
  (List.length s <= skip_space (skipn idx s) idx)%nat ->
  skip_space (skipn idx (s ++ t)) idx = skip_space t (List.length s).
Proof.
  intros Hidx Hsp. rewrite (skipn_app_le idx s t Hidx).
  assert (Hl : spaces (skipn idx s)).
  { apply (skip_space_spaces _ idx). rewrite length_skipn. lia. }
  rewrite (skip_space_app_spaces _ t idx Hl), length_skipn. f_equal. lia.
Qed.

(** X18: after a numeral the unsigned parser accepts white space and nothing
    else. *)
Theorem only_space_may_follow_a_number s r :
  parseTo_uint64 s = Ok r ->
  (forall ws, spaces ws -> parseTo_uint64 (s ++ ws) = Ok r) /\
  (forall c t, isspace c = false -> digit_in 36 c = None ->
     parseTo_uint64 (s ++ c :: t) =
     Throw (NoConvert "Extraneous characters after integer: ")).
Proof.
  intros H.
  destruct (parseTo_uint64_inv _ _ H) as (neg & v & n & idx & E & Hv & -> & Hsp).
  pose proof (strto_scan_bounds _ _ _ _ _ E) as [_ Hidx].
  split.
  - intros ws Hws.
    assert (St : stops ws).
    { destruct Hws as [|c l Hc _]; [exact I|apply isspace_stops, Hc]. }
    unfold parseTo_uint64.
    rewrite stoull_scan, (strto_scan_app _ _ _ _ _ _ E St).
    replace (ULLONG_MAX <? v) with false by (symmetry; apply Z.ltb_ge; exact Hv).
    rewrite (rest_after_number s idx ws Hidx Hsp).
    rewrite <- (app_nil_r ws) at 1.
    rewrite (skip_space_app_spaces ws [] _ Hws). cbn [skip_space].
    replace (_ <? _)%nat with false
      by (symmetry; apply Nat.ltb_ge; rewrite length_app; lia).
    reflexivity.
  - intros c t Hc Hd.
    unfold parseTo_uint64.
    rewrite stoull_scan, (strto_scan_app _ (c :: t) _ _ _ _ E Hd).
    replace (ULLONG_MAX <? v) with false by (symmetry; apply Z.ltb_ge; exact Hv).
    rewrite (rest_after_number s idx (c :: t) Hidx Hsp).
    cbn [skip_space]. rewrite Hc.
    replace (_ <? _)%nat with true
      by (symmetry; apply Nat.ltb_lt; rewrite length_app; cbn [List.length]; lia).
    reflexivity.
Qed.

(** X19: every 64-bit value printed in decimal parses back to itself. *)
Theorem decimal_text_parses_back q :
  0 <= q < 2 ^ 64 -> parseTo_uint64 (dec q) = Ok q.
Proof. exact (parseTo_dec q). Qed.

(** ** Values built from native addresses, and the families of built values *)

Section NativeAddress.
Variable big_endian : bool.
Variable inet_ntop : Z -> list Z -> Z -> ntop_result.
Local Abbreviation port := (Model.port big_endian).
Local Abbreviation tostring := (Model.tostring big_endian inet_ntop).

(** X20: a native IPv4 or IPv6 address is taken over as it is; a null pointer
    or an unspecified address gives the zero value; any other family is
    refused. *)
Theorem native_address_is_taken_over a :
  (sa_family a = AF_INET \/ sa_family a = AF_INET6 ->
   exists v, SockAddr_native (Some a) = Ok v /\
             sa_family v = sa_family a /\ port v = port a /\
             address_bytes big_endian v = address_bytes big_endian a /\
             scope_id v = scope_id a /\
             Model.isAny big_endian v = Model.isAny big_endian a /\
             Model.isLO big_endian v = Model.isLO big_endian a /\
             Model.isMCast big_endian v = Model.isMCast big_endian a /\
             tostring v = tostring a) /\
  (sa_family a = AF_UNSPEC -> SockAddr_native (Some a) = Ok store_zero) /\
  SockAddr_native None = Ok store_zero /\
  (~ supported a -> fails_with UnsupportedFamily (SockAddr_native (Some a))).
Proof.
  split; [|split; [|split]].
  - intros [Hf|Hf].
    + exists {| sa_family := sa_family a; st_in := st_in a; st_in6 := st_in6 store_zero |}.
      split; [unfold SockAddr_native, Model.SockAddr_af, Model.family; rewrite Hf;
              reflexivity|].
      unfold Model.port, address_bytes, scope_id, Model.isAny, Model.isLO,
        Model.isMCast, Model.tostring, Model.print.
      cbn [sa_family st_in st_in6]. rewrite Hf.
      change (AF_INET =? AF_INET) with true. change (AF_INET =? AF_INET6) with false.
      cbv iota. repeat split; reflexivity.
    + exists {| sa_family := sa_family a; st_in := st_in store_zero; st_in6 := st_in6 a |}.
      split; [unfold SockAddr_native, Model.SockAddr_af, Model.family; rewrite Hf;
              reflexivity|].
      unfold Model.port, address_bytes, scope_id, Model.isAny, Model.isLO,
        Model.isMCast, Model.tostring, Model.print.
      cbn [sa_family st_in st_in6]. rewrite Hf.
      change (AF_INET6 =? AF_INET) with false. change (AF_INET6 =? AF_INET6) with true.
      cbv iota. repeat split; reflexivity.
  - intros Hf. unfold SockAddr_native, Model.SockAddr_af. rewrite Hf. reflexivity.
  - reflexivity.
  - intros H. unfold supported in H. unfold SockAddr_native, Model.SockAddr_af.
    destruct (Z.eqb_spec (sa_family a) AF_INET); [tauto|].
    destruct (Z.eqb_spec (sa_family a) AF_INET6); [tauto|].
    destruct (Z.eqb_spec (sa_family a) AF_UNSPEC); [tauto|].
    exact I.
Qed.

End NativeAddress.

Section BuiltValues.
Variable big_endian : bool.
Variable inet_pton : Z -> cstr -> option (list Z).

(** X21: every value the constructors and factories return has one of the
    three families, and [map4to6] and [setPort] keep it so. *)
Theorem built_values_are_supported :
  (forall af v, Model.SockAddr_af af = Ok v -> supported v) /\
  (forall a v, SockAddr_native a = Ok v -> supported v) /\
  (forall name p v, Model.parseAddress big_endian inet_pton name p = Ok v -> supported v) /\
  (forall af p v, Model.any big_endian af p = Ok v -> supported v) /\
  (forall af p v, Model.loopback big_endian af p = Ok v -> supported v) /\
  (forall v r, Model.map4to6 big_endian v = Ok r -> supported r) /\
  (forall v p r, supported v -> Model.setPort big_endian v p = Ok r -> supported r).
Proof.
  assert (A : forall af v, Model.SockAddr_af af = Ok v -> supported v).
  { intros af v. unfold Model.SockAddr_af, supported.
    destruct (Z.eqb_spec af AF_INET) as [->|]; [intros E; injection E as <-; cbn; auto|].
    destruct (Z.eqb_spec af AF_INET6) as [->|]; [intros E; injection E as <-; cbn; auto|].
    destruct (Z.eqb_spec af AF_UNSPEC) as [->|]; [intros E; injection E as <-; cbn; auto|].
    discriminate. }
  split; [exact A|]. split; [|split; [|split; [|split; [|split]]]].
  - intros [a|] v; unfold SockAddr_native.
    + destruct (Model.SockAddr_af (sa_family a)) as [self|e] eqn:E; [|discriminate].
      cbn [bind]. pose proof (A _ _ E) as Hs.
      assert (Hf : sa_family self = sa_family a).
      { unfold Model.SockAddr_af in E. destruct (_ && _); [discriminate|].
        injection E as <-. reflexivity. }
      unfold Model.family.
      repeat match goal with
             | |- context [if ?b then _ else _] => destruct b
             end; intros H; try discriminate H; injection H as <-;
        unfold supported in *; cbn [sa_family]; rewrite <- ?Hf; exact Hs.
    + cbn. intros E. injection E as <-. left. reflexivity.
  - intros name p v H.
    pose proof (parsed_family big_endian inet_pton _ _ _ H) as Hf.
    unfold supported. tauto.
  - intros af p v. unfold Model.any.
    destruct (Model.SockAddr_af af) as [ret|e] eqn:E; [|discriminate]. cbn [bind].
    destruct (Z.eqb_spec af AF_INET) as [->|];
      [intros H; injection H as <-; right; left; unfold Model.SockAddr_af in E;
       cbn in E; injection E as <-; reflexivity|].
    destruct (Z.eqb_spec af AF_INET6) as [->|]; [|discriminate].
    intros H; injection H as <-; right; right; unfold Model.SockAddr_af in E;
      cbn in E; injection E as <-; reflexivity.
  - intros af p v. unfold Model.loopback.
    destruct (Model.SockAddr_af af) as [ret|e] eqn:E; [|discriminate]. cbn [bind].
    destruct (Z.eqb_spec af AF_INET) as [->|];
      [intros H; injection H as <-; right; left; unfold Model.SockAddr_af in E;
       cbn in E; injection E as <-; reflexivity|].
    destruct (Z.eqb_spec af AF_INET6) as [->|]; [|discriminate].
    intros H; injection H as <-; right; right; unfold Model.SockAddr_af in E;
      cbn in E; injection E as <-; reflexivity.
  - intros v r. unfold Model.map4to6, Model.family.
    destruct (Z.eqb_spec (sa_family v) AF_INET);
      [intros H; injection H as <-; right; right; reflexivity|].
    destruct (Z.eqb_spec (sa_family v) AF_INET6); [|discriminate].
    intros H; injection H as <-. right; right; assumption.
  - intros v p r Hs. unfold Model.setPort.
    destruct (sa_family v =? AF_INET);
      [intros H; injection H as <-; exact Hs|].
    destruct (sa_family v =? AF_INET6); [|discriminate].
    intros H; injection H as <-; exact Hs.
Qed.

End BuiltValues.

(** ** Indentation and detail level *)

Module StreamFacts.
Import Streams.

Lemma wrap_long_small x : - 2 ^ 63 <= x < 2 ^ 63 -> wrap_long x = x.
Proof. unfold wrap_long. intros H. Z.div_mod_to_equations. lia. Qed.

Lemma wrap_long_range x : - 2 ^ 63 <= wrap_long x < 2 ^ 63.
Proof. unfold wrap_long. Z.div_mod_to_equations. lia. Qed.

Lemma wrap_long_undo x d : wrap_long (wrap_long (x + d) - d) = wrap_long x.
Proof. unfold wrap_long. Z.div_mod_to_equations. lia. Qed.

Lemma wrap_int_small x : is_int x -> wrap_int x = x.
Proof. unfold wrap_int, is_int. intros H. Z.div_mod_to_equations. lia. Qed.

Lemma wrap_int_range x : is_int (wrap_int x).
Proof. unfold wrap_int, is_int. Z.div_mod_to_equations. lia. Qed.

Lemma wrap_int_idem x : wrap_int (wrap_int x) = wrap_int x.
Proof. apply wrap_int_small, wrap_int_range. Qed.

(** The slot of [Indented]: the one in place, or a fresh one. *)
Lemma indent_slot_spec w :
  wf w ->
  exists idx w',
    indent_slot w = (idx, w') /\ indentIndex w' = idx /\ idx <> INT_MIN /\
    0 <= idx < xalloc_next w' /\
    detailIndex w' = detailIndex w /\ iword w' = iword w /\ written w' = written w /\
    idx <> detailIndex w /\
    xalloc_next w <= xalloc_next w' /\
    (indentIndex w = INT_MIN -> idx = xalloc_next w) /\
    (indentIndex w <> INT_MIN -> idx = indentIndex w /\ w' = w).
Proof.
  intros [Hn Hi Hd Hx Hl Hf]. unfold indent_slot.
  destruct (Z.eqb_spec (indentIndex w) INT_MIN) as [E|E].
  - cbn [xalloc indentIndex]. rewrite E, Z.eqb_refl.
    do 2 eexists. split; [reflexivity|]. cbn.
    unfold INT_MIN in *. repeat split; lia.
  - do 2 eexists. split; [reflexivity|].
    destruct Hi as [Hi|Hi]; [contradiction|]. destruct Hx as [Hx|Hx]; [contradiction|].
    repeat split; trivial; try lia.
Qed.

Lemma detail_slot_spec w :
  wf w ->
  exists idx w',
    detail_slot w = (idx, w') /\ detailIndex w' = idx /\ idx <> INT_MIN /\
    0 <= idx < xalloc_next w' /\
    indentIndex w' = indentIndex w /\ iword w' = iword w /\ written w' = written w /\
    idx <> indentIndex w /\
    xalloc_next w <= xalloc_next w' /\
    (detailIndex w = INT_MIN -> idx = xalloc_next w) /\
    (detailIndex w <> INT_MIN -> idx = detailIndex w /\ w' = w).
Proof.
  intros [Hn Hi Hd Hx Hl Hf]. unfold detail_slot.
  destruct (Z.eqb_spec (detailIndex w) INT_MIN) as [E|E].
  - cbn [xalloc detailIndex]. rewrite E, Z.eqb_refl.
    do 2 eexists. split; [reflexivity|]. cbn.
    unfold INT_MIN in *. repeat split; lia.
  - do 2 eexists. split; [reflexivity|].
    destruct Hd as [Hd|Hd]; [contradiction|].
    repeat split; trivial; try lia; try congruence.
Qed.

Lemma initial_wf : wf initial.
Proof.
  constructor; cbn; unfold INT_MIN; try lia; auto.
Qed.

Lemma set_iword_wf w strm idx x :
  wf w -> 0 <= idx < xalloc_next w -> - 2 ^ 63 <= x < 2 ^ 63 -> wf (set_iword w strm idx x).
Proof.
  intros [Hn Hi Hd Hx Hl Hf] Hidx Hr. constructor; cbn; trivial.
  - intros s i. destruct (_ && _); [exact Hr|apply Hl].
  - intros s i Hi'. destruct (Z.eqb_spec i idx) as [->|_]; [lia|].
    rewrite andb_false_r. apply Hf, Hi'.
Qed.

Lemma slot_wf w w' (idx : Z) :
  wf w -> xalloc_next w <= xalloc_next w' -> iword w' = iword w ->
  (indentIndex w' = INT_MIN \/ 0 <= indentIndex w' < xalloc_next w') ->
  (detailIndex w' = INT_MIN \/ 0 <= detailIndex w' < xalloc_next w') ->
  (indentIndex w' = INT_MIN \/ indentIndex w' <> detailIndex w') ->
  wf w'.
Proof.
  intros [Hn Hi Hd Hx Hl Hf] Hle Hw A B C. constructor; trivial; try lia.
  - intros s i. rewrite Hw. apply Hl.
  - intros s i Hi'. rewrite Hw. apply Hf. lia.
Qed.

Lemma set_iword_wf_below w strm idx x :
  wf w -> idx < xalloc_next w -> - 2 ^ 63 <= x < 2 ^ 63 -> wf (set_iword w strm idx x).
Proof.
  intros [Hn Hi Hd Hx Hl Hf] Hidx Hr. constructor; cbn; trivial.
  - intros s i. destruct (_ && _); [exact Hr|apply Hl].
  - intros s i Hi'. destruct (Z.eqb_spec i idx) as [->|_]; [lia|].
    rewrite andb_false_r. apply Hf, Hi'.
Qed.

Lemma Indented_dtor_wf o w : wf w -> wf (Indented_dtor o w).
Proof.
  intros Hw. destruct o as [[s|] d]; unfold Indented_dtor; cbn [i_strm i_depth];
    [|exact Hw].
  apply set_iword_wf_below; [exact Hw| |apply wrap_long_range].
  pose proof (wf_next w Hw).
  destruct (wf_indent w Hw) as [A|A]; [rewrite A; unfold INT_MIN|]; lia.
Qed.

Lemma Detailed_dtor_wf o w : wf w -> is_int (d_lvl o) -> wf (Detailed_dtor o w).
Proof.
  intros Hw Ho. destruct o as [[s|] l]; unfold Detailed_dtor; cbn [d_strm d_lvl] in *;
    [|exact Hw].
  apply set_iword_wf_below; [exact Hw| |unfold is_int in Ho; lia].
  pose proof (wf_next w Hw).
  destruct (wf_detail w Hw) as [A|A]; [rewrite A; unfold INT_MIN|]; lia.
Qed.

Lemma Indented_ctor_slots w strm x :
  wf w ->
  indentIndex (snd (Indented_ctor strm x w)) <> INT_MIN /\
  detailIndex (snd (Indented_ctor strm x w)) = detailIndex w /\
  (indentIndex w <> INT_MIN -> same_slots w (snd (Indented_ctor strm x w))) /\
  (indentIndex w = INT_MIN ->
   indentIndex (snd (Indented_ctor strm x w)) = xalloc_next w /\
   xalloc_next (snd (Indented_ctor strm x w)) = xalloc_next w + 1).
Proof.
  intros Hw. pose proof (wf_next w Hw) as Hn.
  unfold Indented_ctor, indent_slot, same_slots.
  destruct (Z.eqb_spec (indentIndex w) INT_MIN) as [E|E].
  - cbn [xalloc indentIndex]. rewrite E, Z.eqb_refl.
    cbn [snd set_iword set_indentIndex indentIndex detailIndex xalloc_next].
    unfold INT_MIN. repeat split; lia.
  - cbn [snd set_iword indentIndex detailIndex xalloc_next].
    repeat split; try assumption; try reflexivity; contradiction.
Qed.

Lemma Detailed_ctor_slots w strm x :
  wf w ->
  detailIndex (snd (Detailed_ctor strm x w)) <> INT_MIN /\
  indentIndex (snd (Detailed_ctor strm x w)) = indentIndex w /\
  (detailIndex w <> INT_MIN -> same_slots w (snd (Detailed_ctor strm x w))) /\
  (detailIndex w = INT_MIN ->
   detailIndex (snd (Detailed_ctor strm x w)) = xalloc_next w /\
   xalloc_next (snd (Detailed_ctor strm x w)) = xalloc_next w + 1).
Proof.
  intros Hw. pose proof (wf_next w Hw) as Hn.
  unfold Detailed_ctor, detail_slot, same_slots.
  destruct (Z.eqb_spec (detailIndex w) INT_MIN) as [E|E].
  - cbn [xalloc detailIndex]. rewrite E, Z.eqb_refl.
    cbn [snd set_iword set_detailIndex indentIndex detailIndex xalloc_next].
    unfold INT_MIN. repeat split; lia.
  - cbn [snd set_iword indentIndex detailIndex xalloc_next].
    repeat split; try assumption; try reflexivity; contradiction.
Qed.

Lemma dtor_same_slots w :
  (forall o, same_slots w (Indented_dtor o w)) /\
  (forall o, same_slots w (Detailed_dtor o w)).
Proof.
  split; intros [[s|] d]; unfold same_slots, Indented_dtor, Detailed_dtor;
    cbn [i_strm d_strm set_iword indentIndex detailIndex xalloc_next];
    repeat split; reflexivity.
Qed.

(** X22: from any well-formed state the constructors and the destructors of
    [Indented] and [Detailed] lead to a well-formed state (a [Detailed]
    holding an [int]); and each slot is allocated at most once: a
    constructor leaves its slot allocated and the other slot as it was, it
    calls [xalloc] (once, taking the next index) only when its slot is
    still unallocated, and otherwise changes neither slot nor the counter;
    the destructors never do. *)
Theorem stream_state_stays_well_formed w strm x :
  wf w ->
  (wf (snd (Indented_ctor strm x w)) /\
   (forall o, wf (Indented_dtor o w)) /\
   (forall o, wf (Indented_dtor o (snd (Indented_ctor strm x w)))) /\
   (is_int x -> wf (snd (Detailed_ctor strm x w))) /\
   (forall o, is_int (d_lvl o) -> wf (Detailed_dtor o w)) /\
   (is_int x -> wf (Detailed_dtor (fst (Detailed_ctor strm x w))
                      (snd (Detailed_ctor strm x w))))) /\
  (indentIndex (snd (Indented_ctor strm x w)) <> INT_MIN /\
   detailIndex (snd (Indented_ctor strm x w)) = detailIndex w /\
   (indentIndex w <> INT_MIN -> same_slots w (snd (Indented_ctor strm x w))) /\
   (indentIndex w = INT_MIN ->
    indentIndex (snd (Indented_ctor strm x w)) = xalloc_next w /\
    xalloc_next (snd (Indented_ctor strm x w)) = xalloc_next w + 1)) /\
  (detailIndex (snd (Detailed_ctor strm x w)) <> INT_MIN /\
   indentIndex (snd (Detailed_ctor strm x w)) = indentIndex w /\
   (detailIndex w <> INT_MIN -> same_slots w (snd (Detailed_ctor strm x w))) /\
   (detailIndex w = INT_MIN ->
    detailIndex (snd (Detailed_ctor strm x w)) = xalloc_next w /\
    xalloc_next (snd (Detailed_ctor strm x w)) = xalloc_next w + 1)) /\
  (forall o, same_slots w (Indented_dtor o w)) /\
  (forall o, same_slots w (Detailed_dtor o w)).
Proof.
  intros Hw.
  split; [|split; [exact (Indented_ctor_slots w strm x Hw)|
           split; [exact (Detailed_ctor_slots w strm x Hw)|exact (dtor_same_slots w)]]].
  destruct (indent_slot_spec w Hw)
    as (idx & w1 & E & Hi1 & Hne & Hr & Hd1 & Hw1 & Ht1 & Hdd & Hle & _).
  assert (W1 : wf w1).
  { apply (slot_wf w w1 idx Hw Hle Hw1).
    - right. rewrite Hi1. exact Hr.
    - rewrite Hd1. destruct (wf_detail w Hw) as [A|A]; [left; exact A|right; lia].
    - right. rewrite Hi1, Hd1. exact Hdd. }
  destruct (detail_slot_spec w Hw)
    as (jdx & w2 & E' & Hj2 & Hne' & Hr' & Hi2 & Hw2 & Ht2 & Hdi & Hle' & _).
  assert (W2 : wf w2).
  { apply (slot_wf w w2 jdx Hw Hle' Hw2).
    - rewrite Hi2. destruct (wf_indent w Hw) as [A|A]; [left; exact A|right; lia].
    - right. rewrite Hj2. exact Hr'.
    - rewrite Hi2, Hj2. destruct (wf_indent w Hw) as [A|A]; [left; exact A|right; congruence]. }
  unfold Indented_ctor, Detailed_ctor. rewrite E, E'. cbn [fst snd].
  assert (WI : wf (set_iword w1 strm idx (wrap_long (iword w1 strm idx + x))))
    by (apply set_iword_wf; [exact W1|exact Hr|apply wrap_long_range]).
  assert (WD : is_int x -> wf (set_iword w2 strm jdx x)).
  { intros Hx. apply set_iword_wf; [exact W2|exact Hr'|]. unfold is_int in Hx. lia. }
  split; [exact WI|]. split; [|split; [|split; [|split]]].
  - intros o. apply Indented_dtor_wf, Hw.
  - intros o. apply Indented_dtor_wf, WI.
  - exact WD.
  - intros o Ho. apply Detailed_dtor_wf; assumption.
  - intros Hx. apply Detailed_dtor_wf; [exact (WD Hx)|].
    cbn [d_lvl]. apply wrap_int_range.
Qed.

(** X23: an [Indented] adds its depth to the indentation of its stream for as
    long as it lives, and to nothing else: other streams and the detail
    level are as before, and after its destructor so is the stream. *)
Theorem indented_scope w strm d :
  wf w ->
  let o := fst (Indented_ctor strm d w) in
  let w1 := snd (Indented_ctor strm d w) in
  let w2 := Indented_dtor o w1 in
  indentation strm w1 = wrap_long (indentation strm w + d) /\
  (forall s, s <> strm -> indentation s w1 = indentation s w) /\
  (detailIndex w <> INT_MIN -> forall s, detail s w1 = detail s w) /\
  (forall s i, iword w2 s i = iword w s i) /\
  (forall s, written w2 s = written w s).
Proof.
  intros Hw.
  destruct (indent_slot_spec w Hw)
    as (idx & w' & E & Hi1 & Hne & Hr & Hd1 & Hw1 & Ht1 & Hdd & Hle & Hnew & Hold).
  unfold Indented_ctor. rewrite E. cbn [fst snd]. cbv zeta.
  assert (Hx : forall s, iword w' s idx = indentation s w).
  { intros s. unfold indentation. rewrite Hw1.
    destruct (Z.eqb_spec (indentIndex w) INT_MIN) as [A|A].
    - apply (wf_fresh w Hw). rewrite (Hnew A). lia.
    - destruct (Hold A) as [-> _]. reflexivity. }
  assert (Hnb : (idx =? INT_MIN) = false) by (apply Z.eqb_neq; exact Hne).
  split; [|split; [|split; [|split]]].
  - unfold indentation at 1. cbn [indentIndex set_iword iword]. rewrite Hi1, Hnb.
    rewrite Nat.eqb_refl, Z.eqb_refl. cbn [andb]. rewrite Hx. reflexivity.
  - intros s Hs. unfold indentation at 1. cbn [indentIndex set_iword iword].
    rewrite Hi1, Hnb.
    replace (s =? strm)%nat with false by (symmetry; apply Nat.eqb_neq; exact Hs).
    cbn [andb]. apply Hx.
  - intros Hal s. unfold detail, level. cbn [detailIndex set_iword iword].
    rewrite Hd1.
    replace (detailIndex w =? INT_MIN) with false by (symmetry; apply Z.eqb_neq; exact Hal).
    cbn [fst].
    replace (detailIndex w =? idx) with false
      by (symmetry; apply Z.eqb_neq; congruence).
    rewrite andb_false_r, Hw1. reflexivity.
  - intros s i. unfold Indented_dtor. cbn [i_strm i_depth indentIndex set_iword iword].
    rewrite Hi1, Nat.eqb_refl, Z.eqb_refl. cbn [andb].
    destruct ((s =? strm)%nat && (i =? idx)) eqn:B.
    + apply andb_prop in B. destruct B as [B1 B2].
      apply Nat.eqb_eq in B1. apply Z.eqb_eq in B2. subst s i.
      rewrite wrap_long_undo, Hw1. apply wrap_long_small, (wf_long w Hw).
    + rewrite Hw1. reflexivity.
  - intros s. unfold Indented_dtor. cbn [i_strm written set_iword]. rewrite Ht1. reflexivity.
Qed.

Lemma fold_write_repeat strm text (l : list Z) : forall w,
  written (fold_left (fun w _ => write w strm text) l w) strm =
    written w strm ++ List.concat (repeat text (List.length l)) /\
  (forall s, s <> strm ->
     written (fold_left (fun w _ => write w strm text) l w) s = written w s) /\
  iword (fold_left (fun w _ => write w strm text) l w) = iword w.
Proof.
  induction l as [|x l IH]; intros w; cbn [fold_left List.length repeat List.concat].
  - rewrite app_nil_r. auto.
  - destruct (IH (write w strm text)) as (A & B & C). rewrite A, C. cbn [written write iword].
    rewrite Nat.eqb_refl, <- app_assoc. split; [reflexivity|]. split; [|reflexivity].
    intros s Hs. rewrite (B s Hs). cbn [written write].
    replace (s =? strm)%nat with false by (symmetry; apply Nat.eqb_neq; exact Hs).
    reflexivity.
Qed.

(** X24: [indent] writes four spaces per level of indentation of the stream,
    to that stream alone. *)
Theorem indent_writes_four_spaces_per_level range w strm :
  List.length (range (indentation strm w)) = Z.to_nat (indentation strm w) ->
  written (print_indent range strm w) strm =
    written w strm ++ List.concat (repeat (lit "    ") (Z.to_nat (indentation strm w))) /\
  (forall s, s <> strm -> written (print_indent range strm w) s = written w s).
Proof.
  unfold print_indent, indentation.
  destruct (indentIndex w =? INT_MIN); cbn [negb].
  - intros _. cbn. rewrite app_nil_r. auto.
  - intros Hr.
    destruct (fold_write_repeat strm (lit "    ") (range (iword w strm (indentIndex w))) w)
      as (A & B & _).
    rewrite A, Hr. auto.
Qed.

(** X25: inside a [Detailed] the level of its stream is the one given; its
    destructor brings back the level found, and the indentation is never
    touched. *)
Theorem detailed_scope w strm lvl :
  wf w -> is_int lvl ->
  let o := fst (Detailed_ctor strm lvl w) in
  let w1 := snd (Detailed_ctor strm lvl w) in
  let w2 := Detailed_dtor o w1 in
  detail strm w1 = lvl /\
  (forall s, s <> strm -> detail s w1 = detail s w) /\
  detail strm w2 = detail strm w /\
  (forall s, indentation s w1 = indentation s w /\ indentation s w2 = indentation s w).
Proof.
  intros Hw Hl.
  destruct (detail_slot_spec w Hw)
    as (idx & w' & E & Hj & Hne & Hr & Hi & Hw1 & Ht1 & Hdi & Hle & Hnew & Hold).
  unfold Detailed_ctor. rewrite E. cbn [fst snd]. cbv zeta.
  assert (Hnb : (idx =? INT_MIN) = false) by (apply Z.eqb_neq; exact Hne).
  assert (Hx : forall s, wrap_int (iword w' s idx) = detail s w).
  { intros s. unfold detail, level. rewrite Hw1.
    destruct (Z.eqb_spec (detailIndex w) INT_MIN) as [A|A]; cbn [fst].
    - rewrite (wf_fresh w Hw) by (rewrite (Hnew A); lia). reflexivity.
    - destruct (Hold A) as [-> _]. reflexivity. }
  split; [|split; [|split]].
  - unfold detail, level. cbn [detailIndex set_iword iword]. rewrite Hj, Hnb. cbn [fst].
    rewrite Nat.eqb_refl, Z.eqb_refl. cbn [andb]. apply wrap_int_small, Hl.
  - intros s Hs. unfold detail at 1, level. cbn [detailIndex set_iword iword].
    rewrite Hj, Hnb. cbn [fst].
    replace (s =? strm)%nat with false by (symmetry; apply Nat.eqb_neq; exact Hs).
    cbn [andb]. apply Hx.
  - unfold Detailed_dtor. cbn [d_strm d_lvl]. unfold detail at 1, level.
    cbn [detailIndex set_iword iword]. rewrite Hj, Hnb. cbn [fst].
    rewrite Nat.eqb_refl, Z.eqb_refl. cbn [andb]. rewrite wrap_int_idem. apply Hx.
  - intros s. unfold Detailed_dtor, indentation.
    cbn [d_strm d_lvl indentIndex detailIndex set_iword iword]. rewrite Hi, Hj.
    destruct (Z.eqb_spec (indentIndex w) INT_MIN) as [A|A]; [split; reflexivity|].
    replace (indentIndex w =? idx) with false
      by (symmetry; apply Z.eqb_neq; congruence).
    rewrite !andb_false_r, Hw1. split; reflexivity.
Qed.

End StreamFacts.

(** ** Signals and one-time initialisation *)

(** X26: one [SigInt] at a time: while it lives both signals reach its
    handler and a second one is refused; its destructor puts the process
    back as it was. *)
Theorem sigint_life_cycle id p :
  Signals.thesig p = None ->
  exists o p1,
    Signals.SigInt_ctor id p = Ok (o, p1) /\
    Signals.on_INT p1 = Signals.handle /\ Signals.on_TERM p1 = Signals.handle /\
    Signals._handle p1 = Some id /\
    (forall id', Signals.SigInt_ctor id' p1 = Throw (logic_error "Only one SigInt allowed")) /\
    Signals.SigInt_dtor o p1 = p /\
    Signals._handle (Signals.SigInt_dtor o p1) = None.
Proof.
  intros H. destruct p as [t i k]. cbn in H. subst t.
  do 2 eexists. split; [reflexivity|]. repeat split.
Qed.

(** X27: the first [threadOnce] of a flag runs the function and passes on what
    it throws; every later one returns without running anything, also after
    a failure. *)
Theorem once_means_once {S : Type} flags id (fn fn' : S -> option exn * S) st :
  flags id = false ->
  let r := Once.threadOnce flags id fn st in
  fst r = match fst (fn st) with Some e => Throw e | None => Ok tt end /\
  snd (snd r) = snd (fn st) /\
  (forall i, i <> id -> fst (snd r) i = flags i) /\
  Once.threadOnce (fst (snd r)) id fn' (snd (snd r)) = (Ok tt, snd r).
Proof.
  intros H. unfold Once.threadOnce, Once.epicsThreadOnce, Once.onceWrapper.
  rewrite H. cbn [snd fst]. destruct (fn st) as [[e|] st']; cbn [fst snd];
    rewrite Nat.eqb_refl; repeat split;
    intros i Hi; apply Nat.eqb_neq in Hi; rewrite Hi; reflexivity.
Qed.

(** ** Witnesses of the further properties *)

Lemma setPort_changes_only_the_port_witness :
  exists v', Model.setPort false sample_lo4 80 = Ok v' /\ Model.port false v' = 80 /\
             Model.isLO false v' = true.
Proof.
  destruct (setPort_changes_only_the_port false sample_lo4 80)
    as (v' & E & Hp & _ & _ & _ & _ & Hlo & _).
  - left. reflexivity.
  - lia.
  - exists v'. split; [exact E|]. split; [exact Hp|]. rewrite Hlo. reflexivity.
Defined.

Lemma no_family_no_answer_witness :
  Model.port false store_zero = 0 /\
  exists w, Model.setPort false store_zero 80 = Throw (logic_error w).
Proof.
  destruct (no_family_no_answer false store_zero 80) as (Hp & _ & _ & _ & Hs & _).
  - discriminate.
  - discriminate.
  - split; assumption.
Defined.

Lemma classes_exclude_each_other_witness :
  Model.isAny false sample_lo4 = false /\ Model.isMCast false sample_lo4 = false.
Proof.
  apply (proj1 (proj2 (classes_exclude_each_other false sample_lo4))). reflexivity.
Defined.

Lemma ipv4_multicast_first_octet_witness : Model.isMCast false sample_mcast4 = true.
Proof.
  apply (proj2 (ipv4_multicast_first_octet false sample_mcast4 eq_refl)).
  cbn. lia.
Defined.

Lemma mapped_value_has_no_class_witness :
  exists r, Model.map4to6 false sample_lo4 = Ok r /\
            Model.map4to6 false r = Ok r /\ Model.isLO false r = false.
Proof.
  destruct (Model.map4to6 false sample_lo4) as [r|e] eqn:E; [|discriminate E].
  destruct (mapped_value_has_no_class false sample_lo4 r E) as (H1 & _ & H3).
  exists r. split; [reflexivity|]. split; [exact H1|].
  apply H3. reflexivity.
Defined.

Lemma factory_port_is_truncated_witness :
  exists a, Model.any false AF_INET 70000 = Ok a /\ Model.port false a = 4464.
Proof.
  destruct (proj2 (proj2 (factory_port_is_truncated false AF_INET 70000)))
    as (a & l & Ea & _ & Hp & _).
  - left. reflexivity.
  - exists a. split; [exact Ea|exact Hp].
Defined.

Lemma parsed_value_shape_witness :
  exists v, Ref.parseAddress (lit "[::1]:5076") 5075 = Ok v /\
            scope_id v = 0 /\ 0 <= Model.port false v < 65536.
Proof.
  destruct (Ref.parseAddress (lit "[::1]:5076") 5075) as [v|e] eqn:E; [|discriminate E].
  destruct (parsed_value_shape false Ref.inet_pton _ _ _ E) as (_ & Hs & _ & Hp).
  exists v. split; [reflexivity|]. split; assumption.
Defined.

Lemma parse_failure_is_invalid_format_witness :
  exists e, Ref.parseAddress (lit "1.2.3.4:http") 0 = Throw e /\ InvalidFormat e.
Proof.
  destruct (Ref.parseAddress (lit "1.2.3.4:http") 0) as [v|e] eqn:E; [discriminate E|].
  exists e. split; [reflexivity|].
  exact (parse_failure_is_invalid_format false Ref.inet_pton _ _ _ E).
Defined.


Lemma escape_is_injective_witness : lit "a\b" = lit "a\b".
Proof. apply (escape_is_injective (lit "a\b") (lit "a\b")). reflexivity. Defined.

Lemma guid_text_length_and_injective_witness :
  print_ServerGUID sample_guid = lit "0x0102030405060708090aabcd" /\
  List.length (print_ServerGUID sample_guid) = 26%nat.
Proof.
  destruct (guid_text_length_and_injective sample_guid sample_guid
              ltac:(repeat constructor; unfold is_byte; lia)
              ltac:(repeat constructor; unfold is_byte; lia)) as (Ht & Hl & _).
  split; [exact Ht | exact Hl].
Defined.

Lemma parse_failures_are_NoConvert_witness :
  exists m, NoConvert "Invalid input : " = NoConvert m.
Proof.
  apply (parse_failures_are_NoConvert (lit "x")). left. reflexivity.
Defined.

Lemma parsed_integers_fit_witness : - 2 ^ 63 <= -5 < 2 ^ 63.
Proof. apply (proj2 (parsed_integers_fit (lit "-5") (-5))). reflexivity. Defined.

Lemma signed_text_parses_unsigned_witness :
  parseTo_uint64 (lit "-1") = Ok (2 ^ 64 - 1).
Proof. apply (signed_text_parses_unsigned (lit "-1") (-1)). reflexivity. Defined.

Lemma only_space_may_follow_a_number_witness :
  parseTo_uint64 (lit "80" ++ lit "  ") = Ok 80 /\
  parseTo_uint64 (lit "80" ++ lit "/tcp")
  = Throw (NoConvert "Extraneous characters after integer: ").
Proof.
  destruct (only_space_may_follow_a_number (lit "80") 80 eq_refl) as [A B].
  split.
  - apply A. repeat constructor.
  - apply (B "/"%char (lit "tcp")); reflexivity.
Defined.

Lemma decimal_text_parses_back_witness : parseTo_uint64 (dec 5075) = Ok 5075.
Proof. apply decimal_text_parses_back. lia. Defined.

Lemma native_address_is_taken_over_witness :
  exists v, SockAddr_native (Some sample_scoped6) = Ok v /\
            scope_id v = 5 /\ Model.port false v = 80.
Proof.
  destruct (proj1 (native_address_is_taken_over false Ref.inet_ntop sample_scoped6))
    as (v & E & _ & Hp & _ & Hs & _).
  - right. reflexivity.
  - exists v. split; [exact E|]. split; [rewrite Hs|rewrite Hp]; reflexivity.
Defined.

Lemma built_values_are_supported_witness : supported sample_any4.
Proof.
  apply (proj1 (proj2 (proj2 (proj2 (built_values_are_supported false Ref.inet_pton))))
           AF_INET 0).
  reflexivity.
Defined.

Lemma initial_stream_state : Streams.wf Streams.initial.
Proof.
  constructor; cbn; unfold Streams.INT_MIN; try lia; auto.
Defined.

Lemma stream_state_stays_well_formed_witness :
  Streams.wf (snd (Streams.Indented_ctor 0 2 Streams.initial)) /\
  Streams.indentIndex (snd (Streams.Indented_ctor 0 2 Streams.initial)) = 0 /\
  Streams.xalloc_next (snd (Streams.Indented_ctor 0 2 Streams.initial)) = 1.
Proof.
  destruct (StreamFacts.stream_state_stays_well_formed Streams.initial 0 2
              initial_stream_state) as ((Hw & _) & (_ & _ & _ & Ha) & _).
  split; [exact Hw|]. apply Ha. reflexivity.
Defined.

Lemma indented_scope_witness :
  Streams.indentation 0 (snd (Streams.Indented_ctor 0 2 Streams.initial)) = 2.
Proof.
  apply (proj1 (StreamFacts.indented_scope Streams.initial 0 2 initial_stream_state)).
Defined.

Lemma indent_writes_four_spaces_per_level_witness :
  Streams.written
    (Streams.print_indent range_upto 0 (snd (Streams.Indented_ctor 0 2 Streams.initial))) 0
  = lit "        ".
Proof.
  apply (proj1 (StreamFacts.indent_writes_four_spaces_per_level range_upto
                  (snd (Streams.Indented_ctor 0 2 Streams.initial)) 0 eq_refl)).
Defined.

Lemma detailed_scope_witness :
  Streams.detail 0 (snd (Streams.Detailed_ctor 0 3 Streams.initial)) = 3.
Proof.
  apply (proj1 (StreamFacts.detailed_scope Streams.initial 0 3 initial_stream_state
                  ltac:(unfold Streams.is_int; lia))).
Defined.

Lemma sigint_life_cycle_witness :
  exists o p1,
    Signals.SigInt_ctor 1
      {| Signals.thesig := None; Signals.on_INT := Signals.SIG_DFL;
         Signals.on_TERM := Signals.SIG_IGN |} = Ok (o, p1) /\
    Signals.on_TERM (Signals.SigInt_dtor o p1) = Signals.SIG_IGN.
Proof.
  destruct (sigint_life_cycle 1
              {| Signals.thesig := None; Signals.on_INT := Signals.SIG_DFL;
                 Signals.on_TERM := Signals.SIG_IGN |} eq_refl)
    as (o & p1 & E & _ & _ & _ & _ & D & _).
  exists o, p1. split; [exact E|]. rewrite D. reflexivity.
Defined.

Lemma once_means_once_witness :
  fst (Once.threadOnce (fun _ => false) 7 failing_init 0)
  = Throw (runtime_error "init failed").
Proof.
  apply (proj1 (once_means_once (fun _ => false) 7 failing_init failing_init 0 eq_refl)).
Defined.

Lemma ref_round_trip_ipv4_witness :
  reformat false Ref.inet_pton Ref.inet_ntop sample_lo4 9
  = Ok (Model.tostring false Ref.inet_ntop sample_lo4).
Proof.
  apply (ref_round_trip_ipv4 false sample_lo4 9); [reflexivity|].
  intros H. vm_compute in H. discriminate H.
Defined.
